(** * ScrapeScope: DOM inspection, selector synthesis and the inspector state

    A shallow embedding of the TypeScript sources:
    - [utils/domParser]     : [parseHtmlContent], [generateCssSelector]
    - [services/geminiService] : [generateScrapingScript],
                                 [generateScrapingScriptStream]
    - [App]                 : [handleUrlSubmit], [handleAddTarget],
                              [handleRemoveTarget], the mode toggle
    - [components/VisualViewer], [components/Overlay] : overlay rendering

    Conventions.  A JavaScript string is a [string]; every [ascii] stands for
    one UTF-16 code unit below 256.  A [Record<string, string>] is a
    [gmap string string].  The host facilities ([DOMParser],
    [XMLSerializer], the network, the model service, the element finder) are
    parameters of the sections that use them. *)

From Stdlib Require Import Ascii.
From stdpp Require Import gmap strings list pretty.

Set Warnings "-register-all".
Open Scope string_scope.
Open Scope list_scope.

(** ** JavaScript string primitives *)

Module JS.

(** [WhiteSpace] and [LineTerminator] code units below 256: the characters
    removed by [String.prototype.trim] and matched by the regular
    expression class [\s]. *)
Definition isWhiteSpace (c : ascii) : bool :=
  match c with
  | "009" | "010" | "011" | "012" | "013" | " " | "160" => true
  | _ => false
  end%char.

Fixpoint trimStart (s : string) : string :=
  match s with
  | "" => ""
  | String c s' => if isWhiteSpace c then trimStart s' else s
  end.

Fixpoint trimEnd (s : string) : string :=
  match s with
  | "" => ""
  | String c s' =>
      match trimEnd s' with
      | "" => if isWhiteSpace c then "" else String c ""
      | t => String c t
      end
  end.

(** [s.trim()] *)
Definition trim (s : string) : string := trimEnd (trimStart s).

(** A string is truthy when it is not empty. *)
Definition truthy (s : string) : bool :=
  match s with "" => false | _ => true end.

(** Truthiness of a property that may be [undefined]. *)
Definition truthy_opt (o : option string) : bool :=
  match o with Some s => truthy s | None => false end.

(** [s.split(/\s+/)]: cut at every maximal run of white space.  [cur] is
    the piece being read, [inRun] tells that the previous code unit was
    white space. *)
Fixpoint split_go (inRun : bool) (cur : string) (s : string) : list string :=
  match s with
  | "" => [cur]
  | String c s' =>
      if isWhiteSpace c
      then (if inRun then split_go true cur s' else cur :: split_go true "" s')
      else split_go false (cur +:+ String c "") s'
  end.

Definition split_ws (s : string) : list string := split_go false "" s.

(** [String.prototype.toLowerCase] on code units below 256. *)
Definition lowerChar (c : ascii) : ascii :=
  let n := Ascii.N_of_ascii c in
  if ((65 <=? n) && (n <=? 90) ||
      (192 <=? n) && (n <=? 222) && negb (n =? 215))%N
  then Ascii.ascii_of_N (n + 32) else c.

Fixpoint toLowerCase (s : string) : string :=
  match s with
  | "" => ""
  | String c s' => String (lowerChar c) (toLowerCase s')
  end.

(** [xs.join(sep)] *)
Fixpoint join (sep : string) (xs : list string) : string :=
  match xs with
  | [] => ""
  | [x] => x
  | x :: rest => x +:+ sep +:+ join sep rest
  end.

(** [xs.findIndex(p)]; [None] stands for the result [-1]. *)
Fixpoint findIndex {A} (p : A → bool) (xs : list A) : option nat :=
  match xs with
  | [] => None
  | x :: rest => if p x then Some 0 else S <$> findIndex p rest
  end.

(** [s.substring(0, n)] *)
Definition substring0 (n : nat) (s : string) : string := String.substring 0 n s.

(** [s.replace(/```javascript|```/g, '')]: at every position the longer
    alternative is tried first; a match is dropped and scanning resumes
    after it.  [skip] counts the code units of the current match that are
    still to be dropped. *)
Definition fenceJs : string := "```javascript".
Definition fence : string := "```".

Fixpoint stripFences_go (skip : nat) (s : string) : string :=
  match s with
  | "" => ""
  | String c s' =>
      match skip with
      | S k => stripFences_go k s'
      | O =>
          if String.prefix fenceJs s then stripFences_go 12 s'
          else if String.prefix fence s then stripFences_go 2 s'
          else String c (stripFences_go 0 s')
      end
  end.

Definition stripFences (s : string) : string := stripFences_go 0 s.

End JS.

(** ** The host's DOM *)

(** What [DOMParser.parseFromString(html, 'text/html')] hands back: elements
    with their tag name, their attribute list ([NamedNodeMap], in order) and
    their child nodes; text nodes; and every other kind of node (comments,
    processing instructions), which the traversal skips. *)
Inductive Element : Type :=
  | mkElement (tagName : string) (attrs : list (string * string))
              (childNodes : list Node)
with Node : Type :=
  | ElementNode (e : Element)
  | TextNode (data : string)
  | OtherNode (data : string).

Definition tagName (e : Element) : string :=
  match e with mkElement t _ _ => t end.
Definition attrs (e : Element) : list (string * string) :=
  match e with mkElement _ a _ => a end.
Definition childNodes (e : Element) : list Node :=
  match e with mkElement _ _ c => c end.

(** [element.children]: the element children only. *)
Fixpoint elementChildren (cs : list Node) : list Element :=
  match cs with
  | [] => []
  | ElementNode e :: rest => e :: elementChildren rest
  | _ :: rest => elementChildren rest
  end.

(** [element.setAttribute(name, value)]: overwrite in place or append. *)
Fixpoint setAttribute (ats : list (string * string)) (name value : string)
  : list (string * string) :=
  match ats with
  | [] => [(name, value)]
  | (k, v) :: rest =>
      if decide (k = name) then (k, value) :: rest
      else (k, v) :: setAttribute rest name value
  end.

(** An HTML document: the [head] and [body] elements of its root. *)
Record Document : Type := mkDocument { head : Element; body : Element }.

(** ** [types.ts] *)

Inductive ParsedNode : Type := mkParsedNode {
  id : string;
  tag : string;
  attributes : gmap string string;
  children : list ParsedNode;
  textContent : option string;
  isSelfClosing : option bool }.

Record ScrapeTarget : Type := mkScrapeTarget {
  target_id : string;
  selector : string;
  name : string;
  description : string;
  exampleValue : string }.

(** ** [utils/domParser.ts] *)

Definition INSPECTOR_ID : string := "data-inspector-id".

Definition voidElements : list string :=
  ["area"; "base"; "br"; "col"; "embed"; "hr"; "img"; "input";
   "link"; "meta"; "param"; "source"; "track"; "wbr"].

(** [attributes[attr.name] = attr.value] for one attribute of the element.
    The injected identifier is left out; assigning a string to the
    [__proto__] key of an object literal creates no property. *)
Definition collectAttribute (acc : gmap string string) (attr : string * string)
  : gmap string string :=
  if decide (attr.1 = INSPECTOR_ID) then acc
  else if decide (attr.1 = "__proto__") then acc
  else <[attr.1 := attr.2]> acc.

Definition collectAttributes (ats : list (string * string)) : gmap string string :=
  foldl collectAttribute ∅ ats.

(** The node pushed for a kept text run. *)
Definition textRun (path : string) (childIndex : nat) (data : string) : ParsedNode :=
  {| id := path +:+ "-txt-" +:+ pretty childIndex;
     tag := "#text";
     attributes := ∅;
     children := [];
     textContent := Some data;
     isSelfClosing := Some true |}.

(** [traverse(domNode, path)].  The call writes the identifier on the DOM
    element, so it returns the element as mutated next to the abstract
    node.  The inner loop is [domNode.childNodes.forEach]; it threads
    [childIndex] and yields the pushed children in order. *)
Fixpoint traverse (domNode : Element) (path : string) {struct domNode}
  : ParsedNode * Element :=
  match domNode with
  | mkElement tg ats kids =>
      let ats' := setAttribute ats INSPECTOR_ID path in
      let fix each (cs : list Node) (childIndex : nat) {struct cs}
        : list ParsedNode * list Node :=
        match cs with
        | [] => ([], [])
        | ElementNode e :: rest =>
            let r := traverse e (path +:+ "-" +:+ pretty childIndex) in
            let rs := each rest (S childIndex) in
            (r.1 :: rs.1, ElementNode r.2 :: rs.2)
        | TextNode data :: rest =>
            if JS.truthy (JS.trim data)
            then let rs := each rest (S childIndex) in
                 (textRun path childIndex data :: rs.1, TextNode data :: rs.2)
            else let rs := each rest childIndex in
                 (rs.1, TextNode data :: rs.2)
        | OtherNode data :: rest =>
            let rs := each rest childIndex in (rs.1, OtherNode data :: rs.2)
        end in
      let r := each kids 0 in
      ({| id := path;
          tag := JS.toLowerCase tg;
          attributes := collectAttributes ats';
          children := r.1;
          textContent := None;
          isSelfClosing := Some (bool_decide (JS.toLowerCase tg ∈ voidElements)) |},
       mkElement tg ats' r.2)
  end.

(** The loop of [traverse] as a function of its own. *)
Fixpoint eachChild (path : string) (cs : list Node) (childIndex : nat)
  : list ParsedNode * list Node :=
  match cs with
  | [] => ([], [])
  | ElementNode e :: rest =>
      let r := traverse e (path +:+ "-" +:+ pretty childIndex) in
      let rs := eachChild path rest (S childIndex) in
      (r.1 :: rs.1, ElementNode r.2 :: rs.2)
  | TextNode data :: rest =>
      if JS.truthy (JS.trim data)
      then let rs := eachChild path rest (S childIndex) in
           (textRun path childIndex data :: rs.1, TextNode data :: rs.2)
      else let rs := eachChild path rest childIndex in
           (rs.1, TextNode data :: rs.2)
  | OtherNode data :: rest =>
      let rs := eachChild path rest childIndex in (rs.1, OtherNode data :: rs.2)
  end.

(** [Array.from(body.children).forEach(...)] at the top level: only the
    element children of [body] are visited, each with its index among them;
    the other child nodes of [body] stay where they are. *)
Fixpoint eachBodyChild (cs : list Node) (childIndex : nat)
  : list ParsedNode * list Node :=
  match cs with
  | [] => ([], [])
  | ElementNode e :: rest =>
      let r := traverse e ("root-" +:+ pretty childIndex) in
      let rs := eachBodyChild rest (S childIndex) in
      (r.1 :: rs.1, ElementNode r.2 :: rs.2)
  | other :: rest =>
      let rs := eachBodyChild rest childIndex in (rs.1, other :: rs.2)
  end.

Record ParseResult : Type := mkParseResult {
  root : ParsedNode;
  injectedHtml : string }.

Section DomParser.

(** The host's lenient HTML parser and its serializer. *)
Variable parseFromString : string → Document.
Variable serializeToString : Document → string.

Definition parseHtmlContent (html : string) : ParseResult :=
  let doc := parseFromString html in
  let r := eachBodyChild (childNodes (body doc)) 0 in
  let rootNode :=
    {| id := "root";
       tag := "div";
       attributes := {[ "class" := "inspector-root" ]};
       children := r.1;
       textContent := None;
       isSelfClosing := None |} in
  let body' := mkElement (tagName (body doc)) (attrs (body doc)) r.2 in
  {| root := rootNode;
     injectedHtml := serializeToString {| head := head doc; body := body' |} |}.

End DomParser.

(** [findPath(node, currentPath)] inside [generateCssSelector]: depth first,
    children in order, the first hit wins. *)
Fixpoint findPath (targetId : string) (node : ParsedNode)
    (currentPath : list ParsedNode) {struct node} : option (list ParsedNode) :=
  if decide (id node = targetId) then Some (currentPath ++ [node])
  else
    (fix loop (cs : list ParsedNode) : option (list ParsedNode) :=
       match cs with
       | [] => None
       | child :: rest =>
           match findPath targetId child (currentPath ++ [node]) with
           | Some result => Some result
           | None => loop rest
           end
       end) (children node).

(** The [for ... of node.children] loop of [findPath] as a function of its
    own. *)
Fixpoint findPathIn (targetId : string) (cs : list ParsedNode)
    (currentPath : list ParsedNode) : option (list ParsedNode) :=
  match cs with
  | [] => None
  | child :: rest =>
      match findPath targetId child currentPath with
      | Some result => Some result
      | None => findPathIn targetId rest currentPath
      end
  end.

(** The callback of [pathNodes.map((node, idx) => ...)]; [path] is the whole
    path found, so [path[idx]] is the parent of [pathNodes[idx]]. *)
Definition segment (path : list ParsedNode) (idx : nat) (node : ParsedNode) : string :=
  let selector := tag node in
  if JS.truthy_opt (attributes node !! "id") then
    selector +:+ "#" +:+ default "" (attributes node !! "id")
  else if JS.truthy_opt (attributes node !! "class") then
    let classes := JS.split_ws (JS.trim (default "" (attributes node !! "class"))) in
    if bool_decide (0 < length classes) && JS.truthy_opt (classes !! 0)
    then selector +:+ "." +:+ default "" (classes !! 0)
    else selector
  else
    match path !! idx with
    | Some parent =>
        let siblings := filter (λ c, tag c = tag node) (children parent) in
        if bool_decide (1 < length siblings) then
          match JS.findIndex (λ c, bool_decide (id c = id node)) siblings with
          | Some indexInSiblings =>
              selector +:+ ":nth-of-type(" +:+ pretty (indexInSiblings + 1) +:+ ")"
          | None => selector
          end
        else selector
    | None => selector
    end.

Definition generateCssSelector (root : ParsedNode) (targetId : string) : string :=
  match findPath targetId root [] with
  | None => ""
  | Some path =>
      if bool_decide (length path = 0) then ""
      else
        let pathNodes := drop 1 path in
        if bool_decide (length pathNodes = 0) then "root"
        else JS.join " > " (imap (segment path) pathNodes)
  end.

(** [findNode] of [App]: the first node, depth first, with the given id. *)
Fixpoint findNode (targetId : string) (node : ParsedNode) {struct node}
  : option ParsedNode :=
  if decide (id node = targetId) then Some node
  else
    (fix loop (cs : list ParsedNode) : option ParsedNode :=
       match cs with
       | [] => None
       | child :: rest =>
           match findNode targetId child with
           | Some found => Some found
           | None => loop rest
           end
       end) (children node).

(** ** Vocabulary for the statements about trees *)

(** All ids of a tree, depth first. *)
Fixpoint ids (n : ParsedNode) : list string :=
  id n :: flat_map ids (children n).

(** All nodes of a tree, depth first. *)
Fixpoint nodes (n : ParsedNode) : list ParsedNode :=
  n :: flat_map nodes (children n).

(** The node reached from [n] by following child indices. *)
Fixpoint node_at (n : ParsedNode) (pos : list nat) : option ParsedNode :=
  match pos with
  | [] => Some n
  | i :: pos' =>
      match children n !! i with
      | Some c => node_at c pos'
      | None => None
      end
  end.

(** A text run is a node that carries [textContent]. *)
Definition isTextRun (n : ParsedNode) : bool :=
  match textContent n with Some _ => true | None => false end.

(** ** [services/geminiService.ts] *)

(** The double-quote character. *)
Definition DQ : string := String (Ascii.ascii_of_nat 34) EmptyString.

(** How a response stream of the model service ends. *)
Inductive StreamEnd : Type := Completed | Thrown.

(** A response stream: the [text] of each chunk delivered (possibly
    [undefined]) and the way the iteration ends. *)
Record ResponseStream : Type := mkResponseStream {
  chunkTexts : list (option string);
  ending : StreamEnd }.

Section GeminiService.

(** [process.env.API_KEY] *)
Variable API_KEY : option string.

(** [ai.models.generateContentStream] for the scraping model, as a function
    of the prompt; [None] when the call itself throws. *)
Variable generateContentStream : string → option ResponseStream.

Definition describeTarget (t : ScrapeTarget) : string :=
    "
      - Field Name: " +:+ DQ +:+ name t +:+ DQ +:+ "
      - Selector: " +:+ DQ +:+ selector t +:+ DQ +:+ "
      - User Instruction: " +:+ DQ +:+ description t +:+ DQ +:+ "
      - Example of raw text: " +:+ DQ +:+ exampleValue t +:+ DQ +:+ "
    ".

Definition promptHead : string :=
    "
      You are a web scraping expert. I have an HTML page and a list of data points I want to extract.
      
      Target Data Points:
      ".

Definition promptTail : string :=
    "

      Task:
      Write a JavaScript function named `extractData` that takes the `document` object as an argument.
      It should return a JSON object where the keys are the " +:+ DQ +:+ "Field Name" +:+ DQ +:+ " (normalized to camelCase).
      
      Important Rules:
      1. **Follow User Instructions**: The " +:+ DQ +:+ "User Instruction" +:+ DQ +:+ " is the most important part. If it says " +:+ DQ +:+ "get all links" +:+ DQ +:+ " or " +:+ DQ +:+ "list of items" +:+ DQ +:+ ", return an Array. If it says " +:+ DQ +:+ "text" +:+ DQ +:+ ", return a String.
      2. **Selector Fallback**: Use the provided selector as a starting point. If the user instruction implies children of that selector (e.g. " +:+ DQ +:+ "get links inside this div" +:+ DQ +:+ "), find elements *within* that selector.
      3. **Robustness**: Handle missing elements gracefully (null or empty string/array).
      4. **Output**: Return ONLY the raw JavaScript code for the function. Do not wrap in markdown code blocks.
      
      Example output structure:
      function extractData(doc) {
        const root = doc.querySelector('...');
        return {
           productTitle: root ? root.innerText : '',
           images: Array.from(root.querySelectorAll('img')).map(i => i.src)
        };
      }
    ".

Definition scrapingPrompt (targets : list ScrapeTarget) : string :=
  promptHead +:+ JS.join "
" (map describeTarget targets) +:+ promptTail.

Definition GENERATION_FAILED : string :=
  "// Error generating scraping script. Check API Key.".

(** What one chunk of the response contributes to the output: fences
    stripped, nothing when the rest is empty. *)
Definition cleanChunk (chunk : option string) : option string :=
  let text := JS.stripFences (default "" chunk) in
  if JS.truthy text then Some text else None.

(** [generateScrapingScriptStream(html, targets)]: the chunks the generator
    yields, in order, until it returns. *)
Definition generateScrapingScriptStream (html : string) (targets : list ScrapeTarget)
  : list string :=
  if negb (JS.truthy_opt API_KEY) then ["// Error: No API Key"]
  else
    match generateContentStream (scrapingPrompt targets) with
    | None => [GENERATION_FAILED]
    | Some responseStream =>
        omap cleanChunk (chunkTexts responseStream)
        ++ match ending responseStream with
           | Completed => []
           | Thrown => [GENERATION_FAILED]
           end
    end.

(** [generateScrapingScript(html, targets)]: [result += chunk] for every
    chunk of the stream. *)
Definition generateScrapingScript (html : string) (targets : list ScrapeTarget)
  : string :=
  foldl (λ result chunk, result +:+ chunk) ""
        (generateScrapingScriptStream html targets).

End GeminiService.

(** In-order concatenation of chunks, nothing in between. *)
Definition concatChunks (chunks : list string) : string :=
  foldr String.append "" chunks.

(** ** [services/proxyService.ts] *)

(** What the network gives back for a request. *)
Inductive NetworkResponse : Type :=
  | NetworkError
  | Response (ok : bool) (text : string).

(** Result of awaiting [fetchUrlContent]. *)
Inductive FetchOutcome : Type :=
  | Fulfilled (content : string)
  | Rejected.

(** The URL handed to the relay: [https://] is put in front unless the input
    starts with [http]. *)
Definition targetUrlOf (url : string) : string :=
  if String.prefix "http" url then url else "https://" +:+ url.

Definition fetchUrlContent (r : NetworkResponse) : FetchOutcome :=
  match r with
  | Response true text => Fulfilled text
  | Response false _ => Rejected
  | NetworkError => Rejected
  end.

(** ** [App.tsx] *)

Inductive ScrapedResult : Type :=
  | ScrapedValue (json : string)
  | ScrapedError (error details : string).

Record AppState : Type := mkAppState {
  isResizing : bool;
  urlInput : string;
  loadedUrl : string;
  isLoadingUrl : bool;
  rawHtml : string;
  selectedId : option string;
  hoveredId : option string;
  isInspectMode : bool;
  scrapeTargets : list ScrapeTarget;
  targetName : string;
  targetDescription : string;
  generatedScript : string;
  scrapedResult : option ScrapedResult }.

(** The state setters of [useState]. *)
Definition setUrlInput (v : string) (s : AppState) : AppState :=
  mkAppState (isResizing s) v (loadedUrl s) (isLoadingUrl s) (rawHtml s)
    (selectedId s) (hoveredId s) (isInspectMode s) (scrapeTargets s)
    (targetName s) (targetDescription s) (generatedScript s) (scrapedResult s).
Definition setLoadedUrl (v : string) (s : AppState) : AppState :=
  mkAppState (isResizing s) (urlInput s) v (isLoadingUrl s) (rawHtml s)
    (selectedId s) (hoveredId s) (isInspectMode s) (scrapeTargets s)
    (targetName s) (targetDescription s) (generatedScript s) (scrapedResult s).
Definition setIsLoadingUrl (v : bool) (s : AppState) : AppState :=
  mkAppState (isResizing s) (urlInput s) (loadedUrl s) v (rawHtml s)
    (selectedId s) (hoveredId s) (isInspectMode s) (scrapeTargets s)
    (targetName s) (targetDescription s) (generatedScript s) (scrapedResult s).
Definition setRawHtml (v : string) (s : AppState) : AppState :=
  mkAppState (isResizing s) (urlInput s) (loadedUrl s) (isLoadingUrl s) v
    (selectedId s) (hoveredId s) (isInspectMode s) (scrapeTargets s)
    (targetName s) (targetDescription s) (generatedScript s) (scrapedResult s).
Definition setSelectedId (v : option string) (s : AppState) : AppState :=
  mkAppState (isResizing s) (urlInput s) (loadedUrl s) (isLoadingUrl s) (rawHtml s)
    v (hoveredId s) (isInspectMode s) (scrapeTargets s)
    (targetName s) (targetDescription s) (generatedScript s) (scrapedResult s).
Definition setHoveredId (v : option string) (s : AppState) : AppState :=
  mkAppState (isResizing s) (urlInput s) (loadedUrl s) (isLoadingUrl s) (rawHtml s)
    (selectedId s) v (isInspectMode s) (scrapeTargets s)
    (targetName s) (targetDescription s) (generatedScript s) (scrapedResult s).
Definition setIsInspectMode (v : bool) (s : AppState) : AppState :=
  mkAppState (isResizing s) (urlInput s) (loadedUrl s) (isLoadingUrl s) (rawHtml s)
    (selectedId s) (hoveredId s) v (scrapeTargets s)
    (targetName s) (targetDescription s) (generatedScript s) (scrapedResult s).
Definition setScrapeTargets (v : list ScrapeTarget) (s : AppState) : AppState :=
  mkAppState (isResizing s) (urlInput s) (loadedUrl s) (isLoadingUrl s) (rawHtml s)
    (selectedId s) (hoveredId s) (isInspectMode s) v
    (targetName s) (targetDescription s) (generatedScript s) (scrapedResult s).
Definition setTargetName (v : string) (s : AppState) : AppState :=
  mkAppState (isResizing s) (urlInput s) (loadedUrl s) (isLoadingUrl s) (rawHtml s)
    (selectedId s) (hoveredId s) (isInspectMode s) (scrapeTargets s)
    v (targetDescription s) (generatedScript s) (scrapedResult s).
Definition setTargetDescription (v : string) (s : AppState) : AppState :=
  mkAppState (isResizing s) (urlInput s) (loadedUrl s) (isLoadingUrl s) (rawHtml s)
    (selectedId s) (hoveredId s) (isInspectMode s) (scrapeTargets s)
    (targetName s) v (generatedScript s) (scrapedResult s).
Definition setGeneratedScript (v : string) (s : AppState) : AppState :=
  mkAppState (isResizing s) (urlInput s) (loadedUrl s) (isLoadingUrl s) (rawHtml s)
    (selectedId s) (hoveredId s) (isInspectMode s) (scrapeTargets s)
    (targetName s) (targetDescription s) v (scrapedResult s).
Definition setScrapedResult (v : option ScrapedResult) (s : AppState) : AppState :=
  mkAppState (isResizing s) (urlInput s) (loadedUrl s) (isLoadingUrl s) (rawHtml s)
    (selectedId s) (hoveredId s) (isInspectMode s) (scrapeTargets s)
    (targetName s) (targetDescription s) (generatedScript s) v.
Definition setIsResizing (v : bool) (s : AppState) : AppState :=
  mkAppState v (urlInput s) (loadedUrl s) (isLoadingUrl s) (rawHtml s)
    (selectedId s) (hoveredId s) (isInspectMode s) (scrapeTargets s)
    (targetName s) (targetDescription s) (generatedScript s) (scrapedResult s).

(** The state of the first render; [exampleHtml] is [EXAMPLE_HTML]. *)
Definition initialState (exampleHtml : string) : AppState :=
  {| isResizing := false; urlInput := ""; loadedUrl := ""; isLoadingUrl := false;
     rawHtml := exampleHtml; selectedId := None; hoveredId := None;
     isInspectMode := true; scrapeTargets := []; targetName := "";
     targetDescription := ""; generatedScript := ""; scrapedResult := None |}.

(** [handleUrlSubmit] up to its [await]: nothing happens on an empty input;
    otherwise the loading flag is raised and a fetch is issued.  The closure
    keeps the [urlInput] it was created with. *)
Definition handleUrlSubmit_begin (s : AppState) : option (AppState * string) :=
  if negb (JS.truthy (urlInput s)) then None
  else Some (setIsLoadingUrl true s, urlInput s).

(** [handleUrlSubmit] from the point where the awaited fetch settles:
    the [try] body after the [await], or the [catch], then the [finally].
    The second component tells whether [alert] was called. *)
Definition handleUrlSubmit_resume (capturedUrlInput : string) (o : FetchOutcome)
    (s : AppState) : AppState * bool :=
  match o with
  | Fulfilled content =>
      (setIsLoadingUrl false
         (setSelectedId None
            (setScrapedResult None
               (setGeneratedScript ""
                  (setScrapeTargets []
                     (setLoadedUrl capturedUrlInput
                        (setRawHtml content s)))))), false)
  | Rejected => (setIsLoadingUrl false s, true)
  end.

(** [scrapeTargets.filter((_, i) => i !== index)] *)
Fixpoint filterOutIndex {A} (index i : nat) (xs : list A) : list A :=
  match xs with
  | [] => []
  | x :: rest =>
      if decide (i = index) then filterOutIndex index (S i) rest
      else x :: filterOutIndex index (S i) rest
  end.

Definition handleRemoveTarget (index : nat) (s : AppState) : AppState :=
  setScrapeTargets (filterOutIndex index 0 (scrapeTargets s)) s.

(** The submit button of the URL form is rendered only for a non-empty
    input and is disabled while a load is pending. *)
Definition submitButtonEnabled (s : AppState) : bool :=
  JS.truthy (urlInput s) && negb (isLoadingUrl s).

Section App.

Variable parseFromString : string → Document.
Variable serializeToString : Document → string.

(** The live preview: its container, the lookup of an element by inspector
    id in it, and the element finder ([None] when it throws). *)
Variable Container : Type.
Variable LiveElement : Type.
Variable getContainer : option Container.
Variable querySelector : Container → string → option LiveElement.
Variable finder : LiveElement → Container → option string.

(** [useMemo(() => parseHtmlContent(rawHtml), [rawHtml])] *)
Definition currentRoot (s : AppState) : ParsedNode :=
  root (parseHtmlContent parseFromString serializeToString (rawHtml s)).

(** [selectedNode] *)
Definition selectedNode (s : AppState) : option ParsedNode :=
  match selectedId s with
  | Some sid => if JS.truthy sid then findNode sid (currentRoot s) else None
  | None => None
  end.

(** [currentSelector] *)
Definition currentSelector (s : AppState) : string :=
  match selectedId s with
  | Some sid =>
      if JS.truthy sid then
        match getContainer with
        | Some container =>
            match querySelector container sid with
            | Some element =>
                match finder element container with
                | Some sel => sel
                | None => "Unable to generate unique selector"
                end
            | None => ""
            end
        | None => ""
        end
      else ""
  | None => ""
  end.

(** [selectedNode?.textContent?.substring(0, 30) || 'Element'] *)
Definition preview (s : AppState) : string :=
  match selectedNode s ≫= textContent with
  | Some text =>
      let cut := JS.substring0 30 text in
      if JS.truthy cut then cut else "Element"
  | None => "Element"
  end.

Definition handleAddTarget (s : AppState) : AppState :=
  match selectedId s with
  | Some sid =>
      if negb (JS.truthy sid) || negb (JS.truthy (targetName s)) then s
      else
        setTargetDescription ""
          (setTargetName ""
             (setScrapeTargets
                (scrapeTargets s ++
                 [ {| target_id := sid;
                      selector := currentSelector s;
                      name := targetName s;
                      description :=
                        if JS.truthy (targetDescription s)
                        then targetDescription s else "Get text content";
                      exampleValue := preview s |} ]) s))
  | None => s
  end.

(** *** The application as an event-driven system *)

(** A fetch that was issued and has not settled: the [urlInput] its handler
    captured and the URL it asked the relay for. *)
Record PendingFetch : Type := mkPendingFetch {
  capturedUrlInput : string;
  requestedUrl : string }.

Record System : Type := mkSystem {
  app : AppState;
  inFlight : list PendingFetch;
  alerts : nat }.

Inductive Event : Type :=
  | TypeUrl (text : string)
  | SubmitUrl
  | FetchSettles (k : nat) (r : NetworkResponse)
  | ClickInteract
  | ClickInspect
  | PreviewMouseOver (target : option string)
  | PreviewMouseLeave
  | PreviewClick (target : option string)
  | TreeMouseEnter (nodeId : string)
  | TreeClick (nodeId : string)
  | TypeTargetName (text : string)
  | TypeTargetDescription (text : string)
  | AddTarget
  | RemoveTarget (index : nat)
  | ResizeStart
  | ResizeEnd.

Definition withApp (f : AppState → AppState) (sys : System) : System :=
  mkSystem (f (app sys)) (inFlight sys) (alerts sys).

(** One turn of the event loop. *)
Definition step (sys : System) (ev : Event) : System :=
  match ev with
  | TypeUrl text => withApp (setUrlInput text) sys
  | SubmitUrl =>
      match handleUrlSubmit_begin (app sys) with
      | Some (s', captured) =>
          mkSystem s' (inFlight sys ++ [mkPendingFetch captured (targetUrlOf captured)])
                   (alerts sys)
      | None => sys
      end
  | FetchSettles k r =>
      match inFlight sys !! k with
      | Some p =>
          let res := handleUrlSubmit_resume (capturedUrlInput p) (fetchUrlContent r) (app sys) in
          mkSystem res.1 (delete k (inFlight sys))
                   (if res.2 then S (alerts sys) else alerts sys)
      | None => sys
      end
  | ClickInteract => withApp (setIsInspectMode false) sys
  | ClickInspect => withApp (setIsInspectMode true) sys
  | PreviewMouseOver target =>
      if isInspectMode (app sys) then withApp (setHoveredId target) sys else sys
  | PreviewMouseLeave =>
      if isInspectMode (app sys) then withApp (setHoveredId None) sys else sys
  | PreviewClick target =>
      if isInspectMode (app sys) && JS.truthy_opt target
      then withApp (setSelectedId target) sys else sys
  | TreeMouseEnter nodeId => withApp (setHoveredId (Some nodeId)) sys
  | TreeClick nodeId => withApp (setSelectedId (Some nodeId)) sys
  | TypeTargetName text => withApp (setTargetName text) sys
  | TypeTargetDescription text => withApp (setTargetDescription text) sys
  | AddTarget => withApp handleAddTarget sys
  | RemoveTarget index => withApp (handleRemoveTarget index) sys
  | ResizeStart => withApp (setIsResizing true) sys
  | ResizeEnd => withApp (setIsResizing false) sys
  end.

Definition run (sys : System) (evs : list Event) : System := foldl step sys evs.

Definition boot (exampleHtml : string) : System :=
  mkSystem (initialState exampleHtml) [] 0.

(** An id is live when some node of the current tree carries it. *)
Definition idInCurrentTree (s : AppState) (i : string) : Prop :=
  i ∈ ids (currentRoot s).

(** Both cursors, when set, point into the current tree. *)
Definition cursorsInTree (s : AppState) : Prop :=
  (∀ i, selectedId s = Some i → idInCurrentTree s i) ∧
  (∀ i, hoveredId s = Some i → idInCurrentTree s i).

End App.

(** ** [components/Overlay.tsx] and the overlays of [VisualViewer] *)

Section Overlays.

(** Bounding rectangles of the live document. *)
Variable DOMRect : Type.

Record Highlight : Type := mkHighlight {
  h_rect : DOMRect;
  h_color : string;
  h_label : option string }.

(** The content document of the frame as the effect of [Overlay] finds it:
    [None] when there is no frame or no document, otherwise the lookup from
    an inspector id to the bounding rectangle of the element carrying it
    ([querySelector], then [getBoundingClientRect]). *)
Definition LiveDocument : Type := option (string → option DOMRect).

(** The dependencies of the effect of [Overlay]: [targetId], [isActive] and
    [scrollTrigger] ([iframeRef] is the same object at every render). *)
Definition OverlayDeps : Type := (option string * bool * nat)%type.

(** A mounted [Overlay]: its [rect] state and the dependencies its effect
    last ran with. *)
Record OverlayState : Type := mkOverlayState {
  rect : option DOMRect;
  lastDeps : OverlayDeps }.

(** The effect of [Overlay]: the value it hands to [setRect]. *)
Definition Overlay_effect (targetId : option string) (liveDocument : LiveDocument)
  : option DOMRect :=
  match targetId, liveDocument with
  | Some t, Some lookup => if JS.truthy t then lookup t else None
  | _, _ => None
  end.

(** A render of [Overlay] with its effect settled.  [prev] is the instance
    before the render, [None] when the component is being mounted.  The
    effect runs on mount and when a dependency has changed; otherwise [rect]
    keeps the value of the last run, whatever the document has become. *)
Definition Overlay_update (prev : option OverlayState) (deps : OverlayDeps)
    (liveDocument : LiveDocument) : OverlayState :=
  match prev with
  | Some st =>
      if decide (lastDeps st = deps) then st
      else mkOverlayState (Overlay_effect deps.1.1 liveDocument) deps
  | None => mkOverlayState (Overlay_effect deps.1.1 liveDocument) deps
  end.

(** What [Overlay] returns: nothing without a [rect] or when not active. *)
Definition Overlay (st : OverlayState) (color : string) (label : option string)
    (isActive : bool) : option Highlight :=
  match rect st with
  | Some r => if isActive then Some (mkHighlight r color label) else None
  | None => None
  end.

(** The part of [VisualViewer] the overlays depend on: its [scrollTrigger]
    state and the two [Overlay] instances, [None] while they are not
    mounted. *)
Record ViewerState : Type := mkViewerState {
  scrollTrigger : nat;
  selectedOverlay : option OverlayState;
  hoveredOverlay : option OverlayState }.

Definition initialViewer : ViewerState := mkViewerState 0 None None.

(** [handleScroll], on scroll and on resize of the frame:
    [setScrollTrigger(prev => prev + 1)]. *)
Definition handleScroll (v : ViewerState) : ViewerState :=
  mkViewerState (scrollTrigger v + 1) (selectedOverlay v) (hoveredOverlay v).

(** The condition under which [VisualViewer] renders the two overlays. *)
Definition overlaysMounted (s : AppState) (iframeMounted : bool) : bool :=
  isInspectMode s && iframeMounted && negb (isResizing s).

(** [isActive] of the selection overlay and of the hover overlay. *)
Definition selectedActive (s : AppState) : bool := JS.truthy_opt (selectedId s).
Definition hoveredActive (s : AppState) : bool :=
  JS.truthy_opt (hoveredId s) && negb (bool_decide (hoveredId s = selectedId s)).

(** A render of [VisualViewer] with the given props, effects settled: the
    overlays are updated while the condition holds and unmounted, their
    state lost, when it does not. *)
Definition VisualViewer_update (s : AppState) (iframeMounted : bool)
    (liveDocument : LiveDocument) (v : ViewerState) : ViewerState :=
  if overlaysMounted s iframeMounted then
    mkViewerState (scrollTrigger v)
      (Some (Overlay_update (selectedOverlay v)
               (selectedId s, selectedActive s, scrollTrigger v) liveDocument))
      (Some (Overlay_update (hoveredOverlay v)
               (hoveredId s, hoveredActive s, scrollTrigger v) liveDocument))
  else mkViewerState (scrollTrigger v) None None.

(** The overlays on screen: selection first, hover second. *)
Definition renderOverlays (s : AppState) (iframeMounted : bool) (v : ViewerState)
  : list Highlight :=
  if overlaysMounted s iframeMounted then
    omap (λ x : option Highlight, x)
      [ selectedOverlay v ≫= λ st,
          Overlay st "#ffffff" (Some "Selected") (selectedActive s);
        hoveredOverlay v ≫= λ st,
          Overlay st "#71717a" None (hoveredActive s) ]
  else [].

(** Every mounted overlay last ran its effect with a scroll trigger that is
    not ahead of the current one. *)
Definition viewerConsistent (v : ViewerState) : Prop :=
  (∀ st, selectedOverlay v = Some st → ((lastDeps st).2 ≤ scrollTrigger v)%nat)
  ∧ (∀ st, hoveredOverlay v = Some st → ((lastDeps st).2 ≤ scrollTrigger v)%nat).

End Overlays.

(** ** Vocabulary of the statements *)

Definition onElement (P : Element → Prop) (n : Node) : Prop :=
  match n with ElementNode e => P e | _ => True end.

(** Zero-based index, among the siblings that are elements, of the child at
    position [i] of a list of abstract nodes. *)
Definition elementRank (cs : list ParsedNode) (i : nat) : nat :=
  length (filter (λ c, isTextRun c = false) (take i cs)).

(** Identifiers as the specification words them: an element child is
    numbered among the element siblings only. *)
Definition idsByElementIndex (p : ParsedNode) : Prop :=
  ∀ i c, children p !! i = Some c →
    if isTextRun c
    then ∃ k : nat, id c = id p +:+ "-txt-" +:+ pretty k
    else id c = id p +:+ "-" +:+ pretty (elementRank (children p) i).

(** Identifiers as [traverse] assigns them: every child, element or text
    run, is numbered by its position among the kept children. *)
Definition idsByPosition (p : ParsedNode) : Prop :=
  ∀ i c, children p !! i = Some c →
    id c = id p +:+ (if isTextRun c then "-txt-" else "-") +:+ pretty i.

(** A text node of the source is blank when trimming leaves nothing. *)
Definition nonBlank (data : string) : bool := JS.truthy (JS.trim data).

(** The contents of the text runs of a tree, in document order. *)
Fixpoint textRunContents (n : ParsedNode) : list string :=
  match textContent n with Some t => [t] | None => [] end
  ++ flat_map textRunContents (children n).

(** The data of the non-blank text nodes below a DOM element, at any depth,
    in document order. *)
Fixpoint nonBlankTextData (e : Element) : list string :=
  match e with
  | mkElement _ _ kids =>
      (fix each (cs : list Node) : list string :=
         match cs with
         | [] => []
         | ElementNode c :: rest => nonBlankTextData c ++ each rest
         | TextNode data :: rest => (if nonBlank data then [data] else []) ++ each rest
         | OtherNode _ :: rest => each rest
         end) kids
  end.

Fixpoint nonBlankTextDataIn (cs : list Node) : list string :=
  match cs with
  | [] => []
  | ElementNode c :: rest => nonBlankTextData c ++ nonBlankTextDataIn rest
  | TextNode data :: rest =>
      (if nonBlank data then [data] else []) ++ nonBlankTextDataIn rest
  | OtherNode _ :: rest => nonBlankTextDataIn rest
  end.

(** Number of text runs in a tree. *)
Definition countTextRuns (n : ParsedNode) : nat := length (textRunContents n).

(** Number of non-blank text nodes of the whole source document. *)
Definition countNonBlankTextDoc (doc : Document) : nat :=
  length (nonBlankTextData (head doc) ++ nonBlankTextData (body doc)).

(** A subtree of the result holds, in document order, the non-blank text
    nodes of a source element, and so as many text runs as there are such
    text nodes. *)
Definition keepsTextOf (c : ParsedNode) (e : Element) : Prop :=
  textRunContents c = nonBlankTextData e
  ∧ countTextRuns c = length (nonBlankTextData e).

(** What every text run of a tree looks like. *)
Definition textRunShape (n : ParsedNode) : Prop :=
  match textContent n with
  | Some t =>
      tag n = "#text" ∧ isSelfClosing n = Some true ∧ children n = []
      ∧ nonBlank t = true
  | None => True
  end.

(** Decimal digits, and strings made of them. *)
Definition isDigit (c : ascii) : bool :=
  match c with
  | "0" | "1" | "2" | "3" | "4" | "5" | "6" | "7" | "8" | "9" => true
  | _ => false
  end%char.

Fixpoint allDigits (s : string) : bool :=
  match s with
  | "" => true
  | String c s' => isDigit c && allDigits s'
  end.

(** A string that is empty or starts with something that is not a digit. *)
Definition digitFree (s : string) : bool :=
  match s with "" => true | String c _ => negb (isDigit c) end.

(** A string that is empty or starts with a dash: what follows the id of a
    node in the ids of its descendants. *)
Definition dashTail (s : string) : bool :=
  match s with "" => true | String c _ => bool_decide (c = "-"%char) end.

(** What follows the id of a node in the ids found below its child number
    [j]. *)
Definition childSuffixAt (j : nat) (t : string) : Prop :=
  (∃ rest, t = "-" +:+ pretty j +:+ rest ∧ dashTail rest = true)
  ∨ t = "-txt-" +:+ pretty j.

(** Every id below a traversed element extends the id of the element by
    nothing or by something that starts with a dash. *)
Definition idsExtend (e : Element) : Prop :=
  ∀ path x, x ∈ ids (traverse e path).1 → ∃ t, x = path +:+ t ∧ dashTail t = true.

(** *** Selector segments *)

(** The nodes met from [n] down the child indices [pos], [n] included. *)
Fixpoint chainAlong (n : ParsedNode) (pos : list nat) : list ParsedNode :=
  match pos with
  | [] => [n]
  | i :: pos' =>
      match children n !! i with
      | Some c => n :: chainAlong c pos'
      | None => [n]
      end
  end.

(** One segment per node below [parent] along [pos]; [seg parent i node]
    is the segment of the child [node] sitting at position [i] of [parent]. *)
Fixpoint segmentsAlong (seg : ParsedNode → nat → ParsedNode → string)
    (parent : ParsedNode) (pos : list nat) : list string :=
  match pos with
  | [] => []
  | i :: pos' =>
      match children parent !! i with
      | Some node => seg parent i node :: segmentsAlong seg node pos'
      | None => []
      end
  end.

(** The longest prefix free of white space. *)
Fixpoint takeToken (s : string) : string :=
  match s with
  | "" => ""
  | String c s' => if JS.isWhiteSpace c then "" else String c (takeToken s')
  end.

(** The first white-space separated token of a class value, empty when the
    value has no token. *)
Definition firstClassToken (cls : string) : string :=
  takeToken (JS.trimStart cls).

(** The siblings that share the tag of [node], [node] included. *)
Definition sameTagSiblings (parent node : ParsedNode) : list ParsedNode :=
  filter (λ c, tag c = tag node) (children parent).

(** One-based position of the child at position [i] among the siblings of
    its tag. *)
Definition positionOfType (parent : ParsedNode) (i : nat) (node : ParsedNode) : nat :=
  S (length (filter (λ c, tag c = tag node) (take i (children parent)))).

(** The last two cases of the policy: [:nth-of-type] when more than one
    sibling has the tag, the bare tag otherwise. *)
Definition positionSegment (parent : ParsedNode) (i : nat) (node : ParsedNode) : string :=
  if bool_decide (1 < length (sameTagSiblings parent node))
  then tag node +:+ ":nth-of-type(" +:+ pretty (positionOfType parent i node) +:+ ")"
  else tag node.

(** The policy as the specification words it: an [id] attribute, else a
    [class] attribute, else the position, else the bare tag. *)
Definition statedSegment (parent : ParsedNode) (i : nat) (node : ParsedNode) : string :=
  match attributes node !! "id" with
  | Some v => tag node +:+ "#" +:+ v
  | None =>
      match attributes node !! "class" with
      | Some cls => tag node +:+ "." +:+ firstClassToken cls
      | None => positionSegment parent i node
      end
  end.

(** An attribute counts when it is there and not empty. *)
Definition nonEmptyAttribute (node : ParsedNode) (key : string) : option string :=
  match attributes node !! key with
  | Some v => if JS.truthy v then Some v else None
  | None => None
  end.

(** The policy as [generateCssSelector] applies it: empty [id] and [class]
    values do not count, and a [class] value without a token gives the bare
    tag. *)
Definition designedSegment (parent : ParsedNode) (i : nat) (node : ParsedNode) : string :=
  match nonEmptyAttribute node "id" with
  | Some v => tag node +:+ "#" +:+ v
  | None =>
      match nonEmptyAttribute node "class" with
      | Some cls =>
          if JS.truthy (firstClassToken cls)
          then tag node +:+ "." +:+ firstClassToken cls
          else tag node
      | None => positionSegment parent i node
      end
  end.

(** *** Sample documents *)

(** The DOM of [<div><p>Hello</p><p>World</p></div>]. *)
Definition helloWorldDoc : Document :=
  {| head := mkElement "HEAD" [] [];
     body := mkElement "BODY" []
       [ElementNode (mkElement "DIV" []
          [ElementNode (mkElement "P" [] [TextNode "Hello"]);
           ElementNode (mkElement "P" [] [TextNode "World"])])] |}.

(** The DOM of [<div>Hello<p>x</p></div>]. *)
Definition textThenElementDoc : Document :=
  {| head := mkElement "HEAD" [] [];
     body := mkElement "BODY" []
       [ElementNode (mkElement "DIV" []
          [TextNode "Hello";
           ElementNode (mkElement "P" [] [TextNode "x"])])] |}.

(** The DOM of [Hello<p>x</p>]: the first text node is a child of [body]. *)
Definition bodyTextDoc : Document :=
  {| head := mkElement "HEAD" [] [];
     body := mkElement "BODY" []
       [TextNode "Hello"; ElementNode (mkElement "P" [] [TextNode "x"])] |}.

(** The DOM of [<div id='' class='a'></div>]: the [id] attribute is there
    and empty. *)
Definition emptyIdDoc : Document :=
  {| head := mkElement "HEAD" [] [];
     body := mkElement "BODY" []
       [ElementNode (mkElement "DIV" [("id", ""); ("class", "a")] [])] |}.

(** The DOM of [<div><p class=' '>a</p><p>b</p></div>]: the class value of
    the first [p] is one space. *)
Definition blankClassDoc : Document :=
  {| head := mkElement "HEAD" [] [];
     body := mkElement "BODY" []
       [ElementNode (mkElement "DIV" []
          [ElementNode (mkElement "P" [("class", " ")] [TextNode "a"]);
           ElementNode (mkElement "P" [] [TextNode "b"])])] |}.

(** The DOM of [<title>T</title><p>x</p>]: the title goes to [head]. *)
Definition titleDoc : Document :=
  {| head := mkElement "HEAD" [] [ElementNode (mkElement "TITLE" [] [TextNode "T"])];
     body := mkElement "BODY" [] [ElementNode (mkElement "P" [] [TextNode "x"])] |}.

(** A stand-in for the host on the sample inputs. *)
Definition sampleParser (html : string) : Document :=
  if decide (html = "<div><p>Hello</p><p>World</p></div>") then helloWorldDoc
  else if decide (html = "<div>Hello<p>x</p></div>") then textThenElementDoc
  else if decide (html = "Hello<p>x</p>") then bodyTextDoc
  else if decide (html = "<title>T</title><p>x</p>") then titleDoc
  else if decide (html = "<div><p class=' '>a</p><p>b</p></div>") then blankClassDoc
  else if decide (html = "<div id='' class='a'></div>") then emptyIdDoc
  else {| head := mkElement "HEAD" [] []; body := mkElement "BODY" [] [] |}.

Definition sampleSerializer (doc : Document) : string := "".

Definition sampleParse (html : string) : ParseResult :=
  parseHtmlContent sampleParser sampleSerializer html.

(** The tree of [<div><p>Hello</p><p>World</p></div>]. *)
Definition helloWorldRoot : ParsedNode :=
  root (sampleParse "<div><p>Hello</p><p>World</p></div>").

(** *** The application on the sample host *)

(** The sample host has no live preview to search. *)
Definition sampleStep : System → Event → System :=
  step sampleParser sampleSerializer unit unit None (λ _ _, None) (λ _ _, None).

Definition sampleRun : System → list Event → System :=
  run sampleParser sampleSerializer unit unit None (λ _ _, None) (λ _ _, None).

Definition sampleAddTarget : AppState → AppState :=
  handleAddTarget sampleParser sampleSerializer unit unit None
    (λ _ _, None) (λ _ _, None).

(** The application started on [<div><p>Hello</p><p>World</p></div>]. *)
Definition sampleBoot : System := boot "<div><p>Hello</p><p>World</p></div>".

(** The pointer enters the row of the second [p] in the tree view, then a
    URL is typed, submitted, and its fetch succeeds with [Hello<p>x</p>]. *)
Definition hoverThenLoad : list Event :=
  [TreeMouseEnter "root-0-1"; TypeUrl "example.com"; SubmitUrl;
   FetchSettles 0 (Response true "Hello<p>x</p>")].


(** A selection and a field name, the instruction left blank. *)
Definition readyToAdd : AppState :=
  setTargetName "title"
    (setSelectedId (Some "root-0-0-txt-0")
       (initialState "<div><p>Hello</p><p>World</p></div>")).

(** Every submission of the run goes through the enabled submit button. *)
Fixpoint submissionsGated (stepf : System → Event → System) (sys : System)
    (evs : list Event) : bool :=
  match evs with
  | [] => true
  | ev :: rest =>
      match ev with
      | SubmitUrl => submitButtonEnabled (app sys)
      | _ => true
      end && submissionsGated stepf (stepf sys ev) rest
  end.

(** At most one fetch is pending, and the loading flag tells whether one
    is. *)
Definition oneFetchAtMost (sys : System) : Prop :=
  (isLoadingUrl (app sys) = false ∧ inFlight sys = [])
  ∨ (isLoadingUrl (app sys) = true ∧ length (inFlight sys) = 1).

(** A stream of three chunks that completes. *)
Definition threeChunks : ResponseStream :=
  {| chunkTexts := [Some "function ex"; Some "tractData(doc"; Some ") {...}"];
     ending := Completed |}.

(** ** More of the sources *)

(** [element.getAttribute(name)]: the value of the first attribute of that
    name. *)
Fixpoint getAttribute (ats : list (string * string)) (name : string)
  : option string :=
  match ats with
  | [] => None
  | (k, v) :: rest => if decide (k = name) then Some v else getAttribute rest name
  end.

(** The document [parseHtmlContent] hands to the serializer: the parsed
    document after [traverse] has written the identifiers on it. *)
Definition injectedDocument (parseFromString : string → Document) (html : string)
  : Document :=
  let doc := parseFromString html in
  {| head := head doc;
     body := mkElement (tagName (body doc)) (attrs (body doc))
               (eachBodyChild (childNodes (body doc)) 0).2 |}.

(** The inspector identifiers carried by an element and the elements below
    it, in document order ([None] where an element carries none). *)
Fixpoint inspectorIds (e : Element) : list (option string) :=
  match e with
  | mkElement _ ats kids =>
      getAttribute ats INSPECTOR_ID ::
      (fix each (cs : list Node) : list (option string) :=
         match cs with
         | [] => []
         | ElementNode c :: rest => inspectorIds c ++ each rest
         | _ :: rest => each rest
         end) kids
  end.

Fixpoint inspectorIdsIn (cs : list Node) : list (option string) :=
  match cs with
  | [] => []
  | ElementNode c :: rest => inspectorIds c ++ inspectorIdsIn rest
  | _ :: rest => inspectorIdsIn rest
  end.

(** The ids of the element nodes of a tree, in document order. *)
Fixpoint elementIds (n : ParsedNode) : list string :=
  if isTextRun n then [] else id n :: flat_map elementIds (children n).

(** A child node with the inspector identifier taken off every element. *)
Fixpoint withoutInspectorId (e : Element) : Element :=
  match e with
  | mkElement tg ats kids =>
      mkElement tg (filter (λ a, a.1 ≠ INSPECTOR_ID) ats)
        (map (λ n, match n with
                   | ElementNode c => ElementNode (withoutInspectorId c)
                   | other => other
                   end) kids)
  end.

Definition withoutInspectorIdNode (n : Node) : Node :=
  match n with
  | ElementNode c => ElementNode (withoutInspectorId c)
  | other => other
  end.

(** A string holds a code fence somewhere. *)
Fixpoint hasFence (s : string) : bool :=
  match s with
  | "" => false
  | String c s' => String.prefix JS.fence s || hasFence s'
  end.

(** *** [handleGenerateScraper] of [App] *)

(** The application state together with the [isScraping] flag. *)
Record BuilderState : Type := mkBuilderState {
  builderApp : AppState;
  isScraping : bool }.

(** Up to the loop: nothing happens without targets; otherwise the flag is
    raised and the script emptied. *)
Definition handleGenerateScraper_begin (st : BuilderState) : option BuilderState :=
  if bool_decide (length (scrapeTargets (builderApp st)) = 0) then None
  else Some (mkBuilderState (setGeneratedScript "" (builderApp st)) true).

(** One turn of the loop: [setGeneratedScript(prev => prev + chunk)]. *)
Definition handleGenerateScraper_chunk (st : BuilderState) (chunk : string)
  : BuilderState :=
  mkBuilderState
    (setGeneratedScript (generatedScript (builderApp st) +:+ chunk) (builderApp st))
    (isScraping st).

(** After the loop. *)
Definition handleGenerateScraper_end (st : BuilderState) : BuilderState :=
  mkBuilderState (builderApp st) false.

(** One generation run from start to end, no other event in between.  The
    stream is created from the [rawHtml] and the targets of the state the
    handler was called in. *)
Definition handleGenerateScraper (API_KEY : option string)
    (generateContentStream : string → option ResponseStream)
    (st : BuilderState) : BuilderState :=
  match handleGenerateScraper_begin st with
  | None => st
  | Some started =>
      handleGenerateScraper_end
        (foldl handleGenerateScraper_chunk started
           (generateScrapingScriptStream API_KEY generateContentStream
              (rawHtml (builderApp st)) (scrapeTargets (builderApp st))))
  end.

(** *** The content [VisualViewer] writes to the frame *)

(** [s] without the prefix [p], when [s] starts with [p]. *)
Fixpoint stripPrefix (p s : string) : option string :=
  match p, s with
  | "", _ => Some s
  | String a p', String b s' => if decide (a = b) then stripPrefix p' s' else None
  | String _ _, "" => None
  end.

(** The text before and after the first occurrence of [pat] in [s]. *)
Fixpoint splitAtFirst (pat s : string) : option (string * string) :=
  match stripPrefix pat s with
  | Some after => Some ("", after)
  | None =>
      match s with
      | "" => None
      | String c s' =>
          match splitAtFirst pat s' with
          | Some (before, after) => Some (String c before, after)
          | None => None
          end
      end
  end.

(** [s.includes(pat)] *)
Definition includes (pat s : string) : bool :=
  match splitAtFirst pat s with Some _ => true | None => false end.

(** The replacement text of [String.prototype.replace] for a string
    pattern: [$$] stands for a dollar, [$&] for the match, [$`] for the
    text before it, [$'] for the text after it; every other dollar is kept
    as it is (there are no captures).  [skip] tells that the code unit read
    is the second one of a pattern already expanded. *)
Fixpoint expandReplacement_go (skip : bool) (matched before after : string)
    (template : string) : string :=
  match template with
  | "" => ""
  | String c rest =>
      if skip then expandReplacement_go false matched before after rest
      else if decide (c = "$"%char) then
        match rest with
        | String "$"%char _ =>
            "$" +:+ expandReplacement_go true matched before after rest
        | String "&"%char _ =>
            matched +:+ expandReplacement_go true matched before after rest
        | String "`"%char _ =>
            before +:+ expandReplacement_go true matched before after rest
        | String "'"%char _ =>
            after +:+ expandReplacement_go true matched before after rest
        | _ => String c (expandReplacement_go false matched before after rest)
        end
      else String c (expandReplacement_go false matched before after rest)
  end.

Definition expandReplacement (matched before after template : string) : string :=
  expandReplacement_go false matched before after template.

(** [s.replace(pat, template)] for a string [pat]: the first occurrence
    only. *)
Definition replaceFirst (pat template s : string) : string :=
  match splitAtFirst pat s with
  | Some (before, after) =>
      before +:+ expandReplacement pat before after template +:+ after
  | None => s
  end.

(** The [base] element for a base URL. *)
Definition baseTag (baseUrl : string) : string :=
  "<base href=" +:+ DQ +:+ baseUrl +:+ DQ +:+ " />".

(** First half of the effect: the base element goes in, for a non-empty
    base URL. *)
Definition withBase (html baseUrl : string) : string :=
  if JS.truthy baseUrl then
    if includes "<head>" html
    then replaceFirst "<head>" ("<head>" +:+ baseTag baseUrl) html
    else "<head>" +:+ baseTag baseUrl +:+ "</head>" +:+ html
  else html.

Definition styleInjection (isInspectMode : bool) : string :=
  "
      <style>
        [data-inspector-id] { cursor: " +:+ (if isInspectMode then "crosshair" else "auto") +:+ " !important; }
        /* Disable pointer events on everything if not in inspect mode? No, we want interaction. */
      </style>
    ".

(** Second half: the style rule goes in. *)
Definition withStyle (finalHtml : string) (isInspectMode : bool) : string :=
  if includes "</head>" finalHtml
  then replaceFirst "</head>" (styleInjection isInspectMode +:+ "</head>") finalHtml
  else finalHtml +:+ styleInjection isInspectMode.

(** What [doc.write] receives. *)
Definition frameContent (html baseUrl : string) (isInspectMode : bool) : string :=
  withStyle (withBase html baseUrl) isInspectMode.

(** A string without a dollar sign. *)
Fixpoint dollarFree (s : string) : bool :=
  match s with
  | "" => true
  | String c s' => negb (bool_decide (c = "$"%char)) && dollarFree s'
  end.

(** *** Vocabulary for the event system *)

(** The events that come from the live preview. *)
Definition isPreviewEvent (ev : Event) : bool :=
  match ev with
  | PreviewMouseOver _ | PreviewMouseLeave | PreviewClick _ => true
  | _ => false
  end.

(** A target as [handleAddTarget] builds them: id, name and description
    not empty, an example of 1 to 30 code units. *)
Definition targetWellFormed (t : ScrapeTarget) : Prop :=
  target_id t ≠ "" ∧ name t ≠ "" ∧ description t ≠ ""
  ∧ (1 ≤ String.length (exampleValue t) ≤ 30)%nat.

(** The nodes of a tree at which a path of child indices ends. *)
Definition reaches (n : ParsedNode) (pos : list nat) (targetId : string) : Prop :=
  ∃ target, node_at n pos = Some target ∧ id target = targetId.

(** The loop of [findNode] as a function of its own. *)
Fixpoint findNodeIn (targetId : string) (cs : list ParsedNode) : option ParsedNode :=
  match cs with
  | [] => None
  | child :: rest =>
      match findNode targetId child with
      | Some found => Some found
      | None => findNodeIn targetId rest
      end
  end.

(** *** The shape of a document *)

(** A document as [traverse] sees it: the elements with the children that
    are kept, and the kept text runs; tag names, attributes, text and the
    nodes that are dropped play no role. *)
Inductive Skeleton : Type :=
  | SkElement (kids : list Skeleton)
  | SkText.

Fixpoint skeletonOf (e : Element) : Skeleton :=
  match e with
  | mkElement _ _ kids =>
      SkElement
        ((fix each (cs : list Node) : list Skeleton :=
            match cs with
            | [] => []
            | ElementNode c :: rest => skeletonOf c :: each rest
            | TextNode data :: rest =>
                if nonBlank data then SkText :: each rest else each rest
            | OtherNode _ :: rest => each rest
            end) kids)
  end.

Fixpoint skeletonIn (cs : list Node) : list Skeleton :=
  match cs with
  | [] => []
  | ElementNode c :: rest => skeletonOf c :: skeletonIn rest
  | TextNode data :: rest =>
      if nonBlank data then SkText :: skeletonIn rest else skeletonIn rest
  | OtherNode _ :: rest => skeletonIn rest
  end.

(** The skeletons of the element children of [body]. *)
Definition bodySkeleton (doc : Document) : list Skeleton :=
  map skeletonOf (elementChildren (childNodes (body doc))).

(** The ids of a tree, with its shape. *)
Inductive IdTree : Type := IdNode (label : string) (kids : list IdTree).

Fixpoint idTree (n : ParsedNode) : IdTree :=
  IdNode (id n) (map idTree (children n)).

(** The id found in an id tree along child indices. *)
Fixpoint labelAt (t : IdTree) (pos : list nat) : option string :=
  match t, pos with
  | IdNode l _, [] => Some l
  | IdNode _ kids, i :: pos' =>
      match kids !! i with
      | Some c => labelAt c pos'
      | None => None
      end
  end.

Definition separatorOf (sk : Skeleton) : string :=
  match sk with SkText => "-txt-" | SkElement _ => "-" end.

(** The ids a skeleton gets when its top node gets [path]. *)
Fixpoint idsFor (path : string) (sk : Skeleton) : IdTree :=
  match sk with
  | SkText => IdNode path []
  | SkElement kids =>
      IdNode path
        ((fix each (ks : list Skeleton) (k : nat) : list IdTree :=
            match ks with
            | [] => []
            | c :: rest =>
                idsFor (path +:+ separatorOf c +:+ pretty k) c :: each rest (S k)
            end) kids 0)
  end.

Fixpoint idsForIn (path : string) (ks : list Skeleton) (k : nat) : list IdTree :=
  match ks with
  | [] => []
  | c :: rest => idsFor (path +:+ separatorOf c +:+ pretty k) c :: idsForIn path rest (S k)
  end.

(** The live document of the samples: rectangles are numbers, and only the
    second [p] of the sample page resolves. *)
Definition sampleLookup (i : string) : option nat :=
  if decide (i = "root-0-1") then Some 7 else None.

(** * Properties *)

(** Closes [x ∉ l] for a closed string [x] and a closed list [l]. *)
Ltac absent_from_list :=
  let H := fresh "H" in
  vm_compute; intros H; apply list_elem_of_In in H; simpl in H;
  repeat (destruct H as [H|H]; [discriminate H|]); exact H.

(** ** Induction over the two nested trees *)

Lemma Element_nested_ind (P : Element → Prop) :
  (∀ tg ats kids, Forall (onElement P) kids → P (mkElement tg ats kids)) →
  ∀ e, P e.
Proof.
  intros step. fix IH 1. intros [tg ats kids]. apply step.
  induction kids as [|n kids IHkids]; constructor; [|exact IHkids].
  destruct n; simpl; [apply IH | exact I | exact I].
Qed.

Lemma ParsedNode_nested_ind (P : ParsedNode → Prop) :
  (∀ n, Forall P (children n) → P n) → ∀ n, P n.
Proof.
  intros step. fix IH 1. intros n. apply step.
  destruct n as [i t a cs tc sc]. simpl.
  induction cs as [|c cs IHcs]; constructor; [apply IH | exact IHcs].
Qed.

Lemma elem_of_flat_map {A B} (f : A → list B) (l : list A) (x : B) :
  x ∈ flat_map f l ↔ ∃ y, y ∈ l ∧ x ∈ f y.
Proof.
  rewrite list_elem_of_In, in_flat_map. split.
  - intros (y & Hy & Hx). exists y. by rewrite !list_elem_of_In.
  - intros (y & Hy & Hx). exists y. by rewrite <- !list_elem_of_In.
Qed.

Lemma elem_of_flat_map_lookup {A B} (f : A → list B) (l : list A) i y (x : B) :
  l !! i = Some y → x ∈ f y → x ∈ flat_map f l.
Proof.
  intros Hy Hx. apply elem_of_flat_map. exists y. split; [|done].
  by eapply list_elem_of_lookup_2.
Qed.

(** ** Unfolding [traverse] *)

Lemma traverse_eq tg ats kids path :
  traverse (mkElement tg ats kids) path =
  ({| id := path;
      tag := JS.toLowerCase tg;
      attributes := collectAttributes (setAttribute ats INSPECTOR_ID path);
      children := (eachChild path kids 0).1;
      textContent := None;
      isSelfClosing := Some (bool_decide (JS.toLowerCase tg ∈ voidElements)) |},
   mkElement tg (setAttribute ats INSPECTOR_ID path) (eachChild path kids 0).2).
Proof.
  simpl.
  match goal with
  | |- context [ (fix each (cs : list Node) (childIndex : nat) {struct cs} := _) ] =>
      set (loop := (fix each (cs : list Node) (childIndex : nat) {struct cs} := _))
  end.
  assert (Hloop : ∀ cs k, loop cs k = eachChild path cs k).
  { induction cs as [|c cs IHcs]; intros k; [done|].
    destruct c as [e|data|data]; simpl; rewrite ?IHcs; done. }
  by rewrite Hloop.
Qed.

Lemma traverse_id e path : id (traverse e path).1 = path.
Proof. destruct e. by rewrite traverse_eq. Qed.

Lemma traverse_children e path :
  children (traverse e path).1 = (eachChild path (childNodes e) 0).1.
Proof. destruct e. by rewrite traverse_eq. Qed.

Lemma traverse_textContent e path : textContent (traverse e path).1 = None.
Proof. destruct e. by rewrite traverse_eq. Qed.

Lemma traverse_tag e path : tag (traverse e path).1 = JS.toLowerCase (tagName e).
Proof. destruct e. by rewrite traverse_eq. Qed.

(** ** Identifier assignment *)

Lemma eachChild_ids path cs k j c :
  (eachChild path cs k).1 !! j = Some c →
  id c = path +:+ (if isTextRun c then "-txt-" else "-") +:+ pretty (k + j).
Proof.
  revert k j. induction cs as [|n cs IH]; intros k j; [done|].
  destruct n as [e|data|data]; simpl.
  - destruct j as [|j]; simpl.
    + intros [= <-]. unfold isTextRun.
      by rewrite traverse_textContent, traverse_id, Nat.add_0_r.
    + intros H. apply IH in H. by rewrite H, Nat.add_succ_comm.
  - destruct (JS.truthy (JS.trim data)); simpl; [|by apply IH].
    destruct j as [|j]; simpl.
    + intros [= <-]. simpl. by rewrite Nat.add_0_r.
    + intros H. apply IH in H. by rewrite H, Nat.add_succ_comm.
  - by apply IH.
Qed.

Lemma eachChild_positions path cs k :
  Forall (onElement (λ e, ∀ p, Forall idsByPosition (nodes (traverse e p).1))) cs →
  Forall idsByPosition (flat_map nodes (eachChild path cs k).1).
Proof.
  intros Hcs. revert k. induction Hcs as [|n cs Hn _ IH]; intros k; [constructor|].
  destruct n as [e|data|data]; simpl.
  - apply Forall_app. split; [apply Hn | apply IH].
  - destruct (JS.truthy (JS.trim data)); simpl; [|apply IH].
    constructor; [|apply IH]. by intros i c.
  - apply IH.
Qed.

Lemma traverse_positions e :
  ∀ path, Forall idsByPosition (nodes (traverse e path).1).
Proof.
  induction e as [tg ats kids IH] using Element_nested_ind. intros path.
  rewrite traverse_eq. simpl. constructor.
  - intros i c Hc. simpl in *. by apply eachChild_ids in Hc.
  - by apply eachChild_positions.
Qed.

Lemma eachBodyChild_ids cs k j c :
  (eachBodyChild cs k).1 !! j = Some c →
  id c = "root-" +:+ pretty (k + j) ∧ isTextRun c = false.
Proof.
  revert k j. induction cs as [|n cs IH]; intros k j; [done|].
  destruct n as [e|data|data]; simpl; [|by apply IH..].
  destruct j as [|j]; simpl.
  - intros [= <-]. unfold isTextRun.
    by rewrite traverse_textContent, traverse_id, Nat.add_0_r.
  - intros H. apply IH in H. by rewrite Nat.add_succ_comm in H.
Qed.

Lemma eachBodyChild_positions cs k :
  Forall idsByPosition (flat_map nodes (eachBodyChild cs k).1).
Proof.
  revert k. induction cs as [|n cs IH]; intros k; [constructor|].
  destruct n as [e|data|data]; simpl; [|apply IH..].
  apply Forall_app. split; [apply traverse_positions | apply IH].
Qed.

(** C1, as the code has it: in every tree built by [parseHtmlContent], the
    id of each child is the id of its parent, then ["-"] for an element or
    ["-txt-"] for a kept text run, then the zero-based position of the child
    among all the kept children of that parent (elements and text runs share
    the counter). *)
Theorem parse_ids_by_position parseFromString serializeToString html :
  Forall idsByPosition
    (nodes (root (parseHtmlContent parseFromString serializeToString html))).
Proof.
  unfold parseHtmlContent. simpl. constructor.
  - intros i c Hc. simpl in *.
    apply eachBodyChild_ids in Hc as [-> ->]. done.
  - apply eachBodyChild_positions.
Qed.

(** C1, as stated, fails on [<div>Hello<p>x</p></div>]: the [p] is the first
    element child of the [div] but sits after a kept text run, and its id is
    [root-0-1], not [root-0-0]. *)
Lemma parse_ids_not_by_element_index :
  ¬ Forall idsByElementIndex (nodes (root (sampleParse "<div>Hello<p>x</p></div>"))).
Proof.
  intros H. rewrite Forall_forall in H.
  set (r := root _) in H.
  assert (Hdiv : ∃ d, children r !! 0 = Some d) by (eexists; reflexivity).
  destruct Hdiv as [d Hd].
  assert (Hin : d ∈ nodes r).
  { vm_compute in Hd. injection Hd as <-. vm_compute.
    apply list_elem_of_In. right. left. reflexivity. }
  specialize (H d Hin 1).
  vm_compute in Hd. injection Hd as <-.
  specialize (H _ eq_refl). vm_compute in H. discriminate H.
Qed.

(** The scenario of the specification: [<div><p>Hello</p><p>World</p></div>]
    gives a root with one [div] ([root-0]) holding two [p] ([root-0-0],
    [root-0-1]), each with one text run. *)
Example parse_hello_world :
  map id (children helloWorldRoot) = ["root-0"]
  ∧ ids helloWorldRoot
    = ["root"; "root-0"; "root-0-0"; "root-0-0-txt-0"; "root-0-1"; "root-0-1-txt-0"]
  ∧ map tag (nodes helloWorldRoot) = ["div"; "div"; "p"; "#text"; "p"; "#text"]
  ∧ textRunContents helloWorldRoot = ["Hello"; "World"].
Proof. repeat split; vm_compute; reflexivity. Qed.

(** ** Text runs *)

Lemma nonBlankTextData_eq tg ats kids :
  nonBlankTextData (mkElement tg ats kids) = nonBlankTextDataIn kids.
Proof.
  simpl. induction kids as [|n kids IH]; [done|].
  destruct n; simpl; by rewrite IH.
Qed.

Lemma eachChild_text path cs k :
  Forall (onElement (λ e, ∀ p, textRunContents (traverse e p).1 = nonBlankTextData e)) cs →
  flat_map textRunContents (eachChild path cs k).1 = nonBlankTextDataIn cs.
Proof.
  intros Hcs. revert k. induction Hcs as [|n cs Hn _ IH]; intros k; [done|].
  destruct n as [e|data|data]; simpl.
  - by rewrite Hn, IH.
  - unfold nonBlank. destruct (JS.truthy (JS.trim data)); simpl; by rewrite IH.
  - apply IH.
Qed.

Lemma traverse_text e :
  ∀ path, textRunContents (traverse e path).1 = nonBlankTextData e.
Proof.
  induction e as [tg ats kids IH] using Element_nested_ind. intros path.
  rewrite traverse_eq, nonBlankTextData_eq. simpl. by apply eachChild_text.
Qed.

Lemma eachBodyChild_text cs k :
  Forall2 keepsTextOf (eachBodyChild cs k).1 (elementChildren cs).
Proof.
  revert k. induction cs as [|n cs IH]; intros k; [constructor|].
  destruct n as [e|data|data]; simpl; [|apply IH..].
  constructor; [|apply IH]. unfold keepsTextOf, countTextRuns.
  by rewrite traverse_text.
Qed.

Lemma eachChild_shape path cs k :
  Forall (onElement (λ e, ∀ p, Forall textRunShape (nodes (traverse e p).1))) cs →
  Forall textRunShape (flat_map nodes (eachChild path cs k).1).
Proof.
  intros Hcs. revert k. induction Hcs as [|n cs Hn _ IH]; intros k; [constructor|].
  destruct n as [e|data|data]; simpl.
  - apply Forall_app. split; [apply Hn | apply IH].
  - destruct (JS.truthy (JS.trim data)) eqn:Hd; simpl; [|apply IH].
    constructor; [|apply IH]. by repeat split.
  - apply IH.
Qed.

Lemma traverse_shape e :
  ∀ path, Forall textRunShape (nodes (traverse e path).1).
Proof.
  induction e as [tg ats kids IH] using Element_nested_ind. intros path.
  rewrite traverse_eq. simpl. constructor; [exact I|]. by apply eachChild_shape.
Qed.

Lemma eachBodyChild_shape cs k :
  Forall textRunShape (flat_map nodes (eachBodyChild cs k).1).
Proof.
  revert k. induction cs as [|n cs IH]; intros k; [constructor|].
  destruct n as [e|data|data]; simpl; [|apply IH..].
  apply Forall_app. split; [apply traverse_shape | apply IH].
Qed.

(** The children of a traversed element: its text runs are, in order, the
    non-blank text children of the element. *)
Lemma traverse_text_children e path :
  omap textContent (children (traverse e path).1)
  = omap (λ n, match n with
               | TextNode data => if nonBlank data then Some data else None
               | _ => None
               end) (childNodes e).
Proof.
  rewrite traverse_children. generalize 0.
  induction (childNodes e) as [|n cs IH]; intros k; [done|].
  destruct n as [c|data|data]; simpl.
  - by rewrite traverse_textContent, IH.
  - unfold nonBlank. destruct (JS.truthy (JS.trim data)); simpl; by rewrite IH.
  - apply IH.
Qed.

(** C3, as the code has it: in every tree built by [parseHtmlContent], every
    text run has tag [#text], [isSelfClosing = true], no children and a
    content that is not blank; and the subtree of each element child of
    [body] holds, in document order, exactly the non-blank text nodes found
    inside that element, so it has as many text runs as the element has
    non-blank text nodes. *)
Theorem parse_text_runs parseFromString serializeToString html :
  Forall textRunShape
    (nodes (root (parseHtmlContent parseFromString serializeToString html)))
  ∧ Forall2 keepsTextOf
      (children (root (parseHtmlContent parseFromString serializeToString html)))
      (elementChildren (childNodes (body (parseFromString html)))).
Proof.
  unfold parseHtmlContent. simpl. split.
  - constructor; [exact I|]. apply eachBodyChild_shape.
  - apply eachBodyChild_text.
Qed.

(** C3, as stated, fails on [<title>T</title><p>x</p>]: the source has two
    non-blank text nodes, the tree has one text run; the text of the title
    is not blank and yet is not in the tree.  The same happens to a text
    node that is a child of [body], as in [Hello<p>x</p>]. *)
Lemma parse_text_count_mismatch :
  countTextRuns (root (sampleParse "<title>T</title><p>x</p>")) = 1
  ∧ countNonBlankTextDoc (sampleParser "<title>T</title><p>x</p>") = 2
  ∧ nonBlank "T" = true
  ∧ ("T" ∉ textRunContents (root (sampleParse "<title>T</title><p>x</p>")))
  ∧ countTextRuns (root (sampleParse "Hello<p>x</p>")) = 1
  ∧ countNonBlankTextDoc (sampleParser "Hello<p>x</p>") = 2.
Proof.
  repeat split; try reflexivity. absent_from_list.
Qed.

(** ** Ids are pairwise distinct *)

Lemma string_app_nil_r (s : string) : s +:+ "" = s.
Proof. induction s as [|c s IH]; [done|]. unfold String.app in *. simpl. by rewrite IH. Qed.

Lemma string_app_assoc (a b c : string) : (a +:+ b) +:+ c = a +:+ (b +:+ c).
Proof.
  induction a as [|x a IH]; [done|]. unfold String.app in *. simpl. by rewrite IH.
Qed.

Lemma string_app_cons (c : ascii) (a b : string) :
  String c a +:+ b = String c (a +:+ b).
Proof. done. Qed.

Lemma string_app_nil_l (s : string) : "" +:+ s = s.
Proof. done. Qed.

Lemma string_app_self_nil (a t : string) : a +:+ t = a → t = "".
Proof.
  intros H. apply (inj (String.app a)). by rewrite string_app_nil_r.
Qed.

Lemma allDigits_app a b : allDigits (a +:+ b) = allDigits a && allDigits b.
Proof.
  induction a as [|c a IH]; [done|].
  rewrite string_app_cons. simpl. rewrite IH. by rewrite andb_assoc.
Qed.

Lemma pretty_N_char_digit x : isDigit (pretty_N_char x) = true.
Proof. unfold pretty_N_char. by repeat case_match. Qed.

Lemma pretty_N_go_digits x :
  ∀ s, ∃ d, pretty_N_go x s = d +:+ s ∧ allDigits d = true ∧ ((0 < x)%N → d ≠ "").
Proof.
  induction (N.lt_wf_0 x) as [x _ IH]. intros s.
  destruct (decide (x = 0%N)) as [->|Hx].
  - exists "". rewrite pretty_N_go_0. repeat split. lia.
  - assert (Hpos : (0 < x)%N) by lia.
    rewrite pretty_N_go_step by done.
    destruct (IH (x `div` 10)%N (N.div_lt x 10 Hpos eq_refl)
                 (String (pretty_N_char (x `mod` 10)) s)) as (d & -> & Hd & _).
    exists (d +:+ String (pretty_N_char (x `mod` 10)) "").
    rewrite string_app_assoc, string_app_cons, string_app_nil_l.
    split; [done|]. split.
    + rewrite allDigits_app, Hd. simpl. by rewrite pretty_N_char_digit.
    + intros _. destruct d; discriminate.
Qed.

Lemma pretty_nat_digits (n : nat) :
  ∃ c s, pretty n = String c s ∧ allDigits (String c s) = true.
Proof.
  unfold pretty, pretty_nat, pretty, pretty_N.
  case_decide as Hn.
  - by exists "0"%char, "".
  - destruct (pretty_N_go_digits (N.of_nat n) "") as (d & Hd & Hall & Hne).
    rewrite string_app_nil_r in Hd. rewrite Hd.
    destruct d as [|c s]; [exfalso; apply Hne; [lia|done]|]. by exists c, s.
Qed.

Lemma digits_split a b s s' :
  allDigits a = true → allDigits b = true →
  digitFree s = true → digitFree s' = true →
  a +:+ s = b +:+ s' → a = b ∧ s = s'.
Proof.
  revert b. induction a as [|c a IH]; intros b Ha Hb Hs Hs' Heq.
  - destruct b as [|c' b]; [done|].
    rewrite string_app_nil_l, string_app_cons in Heq. subst s.
    simpl in Hs, Hb. apply andb_prop in Hb as [Hc _]. by rewrite Hc in Hs.
  - destruct b as [|c' b].
    + rewrite string_app_nil_l, string_app_cons in Heq. subst s'.
      simpl in Hs', Ha. apply andb_prop in Ha as [Hc _]. by rewrite Hc in Hs'.
    + rewrite !string_app_cons in Heq. injection Heq as -> Heq.
      simpl in Ha, Hb. apply andb_prop in Ha as [_ Ha]. apply andb_prop in Hb as [_ Hb].
      destruct (IH b Ha Hb Hs Hs' Heq) as [-> ->]. done.
Qed.

Lemma dashTail_digitFree s : dashTail s = true → digitFree s = true.
Proof.
  destruct s as [|c s]; [done|]. simpl. intros ->%bool_decide_eq_true. done.
Qed.

Lemma childSuffixAt_dashTail j t : childSuffixAt j t → dashTail t = true ∧ t ≠ "".
Proof. intros [(rest & -> & _)| ->]; done. Qed.

Lemma childSuffixAt_inj j j' t : childSuffixAt j t → childSuffixAt j' t → j = j'.
Proof.
  destruct (pretty_nat_digits j) as (c & s & Hj & Hdj).
  destruct (pretty_nat_digits j') as (c' & s' & Hj' & Hdj').
  intros [(rest & -> & Hrest)| ->] [(rest' & Heq & Hrest')|Heq].
  - rewrite !string_app_cons, !string_app_nil_l in Heq. injection Heq as Heq.
    rewrite Hj, Hj' in Heq.
    apply digits_split in Heq as [Heq _]; auto using dashTail_digitFree.
    apply (inj pretty). by rewrite Hj, Hj'.
  - rewrite Hj in Heq. rewrite !string_app_cons, !string_app_nil_l in Heq.
    injection Heq as -> _. done.
  - rewrite Hj' in Heq. rewrite !string_app_cons, !string_app_nil_l in Heq.
    injection Heq as <- _. done.
  - apply (inj (String.app "-txt-")) in Heq. by apply (inj pretty).
Qed.

Lemma eachChild_ids_in path cs k x :
  Forall (onElement idsExtend) cs →
  x ∈ flat_map ids (eachChild path cs k).1 →
  ∃ (j : nat) t, (k ≤ j)%nat ∧ x = path +:+ t ∧ childSuffixAt j t.
Proof.
  intros Hcs. revert k. induction Hcs as [|n cs Hn _ IH]; intros k.
  { simpl. by intros ?%elem_of_nil. }
  destruct n as [e|data|data]; simpl.
  - rewrite elem_of_app. intros [Hx|Hx].
    + apply Hn in Hx as (t & -> & Ht). exists k, ("-" +:+ pretty k +:+ t).
      split; [lia|]. split; [by rewrite !string_app_assoc|]. left. eauto.
    + apply IH in Hx as (j & t & ? & ? & ?). exists j, t. split; [lia|done].
  - destruct (JS.truthy (JS.trim data)); simpl.
    + rewrite elem_of_cons. intros [->|Hx].
      * exists k, ("-txt-" +:+ pretty k). split; [lia|]. split; [done|]. by right.
      * apply IH in Hx as (j & t & ? & ? & ?). exists j, t. split; [lia|done].
    + apply IH.
  - apply IH.
Qed.

Lemma traverse_idsExtend e : idsExtend e.
Proof.
  induction e as [tg ats kids IH] using Element_nested_ind. intros path x.
  rewrite traverse_eq. simpl. rewrite elem_of_cons. intros [->|Hx].
  - exists "". by rewrite string_app_nil_r.
  - apply eachChild_ids_in in Hx as (j & t & _ & -> & Ht); [|done].
    exists t. split; [done|]. by apply childSuffixAt_dashTail in Ht as [? _].
Qed.

Lemma eachChild_NoDup path cs k :
  Forall (onElement (λ e, ∀ p, NoDup (ids (traverse e p).1))) cs →
  NoDup (flat_map ids (eachChild path cs k).1).
Proof.
  intros Hcs. revert k. induction Hcs as [|n cs Hn _ IH]; intros k; [constructor|].
  assert (Hext : Forall (onElement idsExtend) cs).
  { apply Forall_forall. intros [e| |] _; simpl; auto using traverse_idsExtend. }
  assert (Hlater : ∀ t, childSuffixAt k t →
            path +:+ t ∉ flat_map ids (eachChild path cs (S k)).1).
  { intros t Ht Hin. apply eachChild_ids_in in Hin as (j & t' & Hle & Heq & Ht'); [|done].
    apply (inj (String.app path)) in Heq as <-.
    pose proof (childSuffixAt_inj _ _ _ Ht Ht'). lia. }
  destruct n as [e|data|data]; simpl.
  - apply NoDup_app. split; [apply Hn|]. split; [|apply IH].
    intros x Hx. apply traverse_idsExtend in Hx as (t & -> & Ht).
    rewrite !string_app_assoc. apply Hlater. left. eauto.
  - destruct (JS.truthy (JS.trim data)); simpl; [|apply IH].
    constructor; [|apply IH]. apply Hlater. by right.
  - apply IH.
Qed.

Lemma traverse_NoDup e : ∀ path, NoDup (ids (traverse e path).1).
Proof.
  induction e as [tg ats kids IH] using Element_nested_ind. intros path.
  rewrite traverse_eq. simpl. constructor; [|by apply eachChild_NoDup].
  intros Hin. apply eachChild_ids_in in Hin as (j & t & _ & Heq & Ht).
  - symmetry in Heq. apply string_app_self_nil in Heq as ->.
    by apply childSuffixAt_dashTail in Ht as [_ ?].
  - apply Forall_forall. intros [e| |] _; simpl; auto using traverse_idsExtend.
Qed.

Lemma eachBodyChild_ids_in cs k x :
  x ∈ flat_map ids (eachBodyChild cs k).1 →
  ∃ (j : nat) t, (k ≤ j)%nat ∧ x = "root" +:+ t ∧ childSuffixAt j t.
Proof.
  revert k. induction cs as [|n cs IH]; intros k.
  { simpl. by intros ?%elem_of_nil. }
  assert (Hrest : x ∈ flat_map ids (eachBodyChild cs k).1 →
            ∃ (j : nat) t, (k ≤ j)%nat ∧ x = "root" +:+ t ∧ childSuffixAt j t) by apply IH.
  destruct n as [e|data|data]; simpl; [|done..].
  rewrite elem_of_app. intros [Hx|Hx].
  - apply traverse_idsExtend in Hx as (t & -> & Ht).
    exists k, ("-" +:+ pretty k +:+ t).
    split; [lia|]. split; [by rewrite !string_app_assoc|]. left. eauto.
  - apply IH in Hx as (j & t & ? & ? & ?). exists j, t. split; [lia|done].
Qed.

Lemma eachBodyChild_NoDup cs k :
  NoDup (flat_map ids (eachBodyChild cs k).1).
Proof.
  revert k. induction cs as [|n cs IH]; intros k; [constructor|].
  destruct n as [e|data|data]; simpl; [|apply IH..].
  apply NoDup_app. split; [apply traverse_NoDup|]. split; [|apply IH].
  intros x Hx Hin. apply traverse_idsExtend in Hx as (t & -> & Ht).
  apply eachBodyChild_ids_in in Hin as (j & t' & Hle & Heq & Ht').
  assert (Hk : childSuffixAt k ("-" +:+ pretty k +:+ t)) by (left; eauto).
  assert (Heq' : "root" +:+ ("-" +:+ pretty k +:+ t) = "root" +:+ t').
  { rewrite <- Heq. by rewrite !string_app_assoc. }
  apply (inj (String.app "root")) in Heq' as <-.
  pose proof (childSuffixAt_inj _ _ _ Hk Ht'). lia.
Qed.

(** The ids of a tree built by [parseHtmlContent] are pairwise distinct. *)
Lemma parse_ids_NoDup parseFromString serializeToString html :
  NoDup (ids (root (parseHtmlContent parseFromString serializeToString html))).
Proof.
  unfold parseHtmlContent. simpl. constructor; [|apply eachBodyChild_NoDup].
  intros Hin. apply eachBodyChild_ids_in in Hin as (j & t & _ & Heq & Ht).
  symmetry in Heq. change "root" with ("root" +:+ "") in Heq at 2.
  apply (inj (String.app "root")) in Heq as ->.
  by apply childSuffixAt_dashTail in Ht as [_ ?].
Qed.

(** ** [generateCssSelector] *)

Lemma findPath_eq targetId node currentPath :
  findPath targetId node currentPath =
  if decide (id node = targetId) then Some (currentPath ++ [node])
  else findPathIn targetId (children node) (currentPath ++ [node]).
Proof.
  destruct node as [i t a cs tc sc]. simpl.
  destruct (decide (i = targetId)); [done|].
  generalize (currentPath ++ [mkParsedNode i t a cs tc sc]). intros cur.
  induction cs as [|c cs IH]; [done|]. simpl. by rewrite IH.
Qed.

Lemma findPath_absent targetId :
  ∀ node currentPath, targetId ∉ ids node → findPath targetId node currentPath = None.
Proof.
  induction node as [node IH] using ParsedNode_nested_ind. intros cur Hnot.
  rewrite findPath_eq.
  destruct node as [i t a cs tc sc]. simpl in *.
  apply not_elem_of_cons in Hnot as [Hne Hnot].
  destruct (decide (i = targetId)); [congruence|].
  generalize (cur ++ [mkParsedNode i t a cs tc sc]). intros cur'.
  induction IH as [|c cs Hc _ IHcs]; [done|]. simpl in *.
  apply not_elem_of_app in Hnot as [Hc' Hcs'].
  rewrite (Hc cur' Hc'). by apply IHcs.
Qed.

(** C5: when no node of the tree carries the target id,
    [generateCssSelector] returns the empty string. *)
Theorem generateCssSelector_absent (root : ParsedNode) (targetId : string) :
  targetId ∉ ids root → generateCssSelector root targetId = "".
Proof.
  intros Hnot. unfold generateCssSelector. by rewrite findPath_absent.
Qed.

Lemma generateCssSelector_absent_witness :
  ("root-7" ∉ ids helloWorldRoot)
  ∧ generateCssSelector helloWorldRoot "root-7" = "".
Proof.
  assert (H : "root-7" ∉ ids helloWorldRoot) by absent_from_list.
  split; [exact H|]. apply (generateCssSelector_absent _ _ H).
Defined.

(** *** The path found *)

Lemma node_at_ids n pos target :
  node_at n pos = Some target → id target ∈ ids n.
Proof.
  revert n. induction pos as [|i pos IH]; intros n; simpl.
  - intros [= ->]. destruct target; simpl. apply elem_of_cons. by left.
  - destruct (children n !! i) as [c|] eqn:Hc; [|done]. intros H%IH.
    destruct n as [i0 t a cs tc sc]. simpl in *. apply elem_of_cons. right.
    by eapply elem_of_flat_map_lookup.
Qed.

Lemma ids_NoDup_inv n :
  NoDup (ids n) →
  (id n ∉ flat_map ids (children n)) ∧ NoDup (flat_map ids (children n)).
Proof. destruct n. simpl. by intros [??]%NoDup_cons. Qed.

Lemma flat_map_ids_NoDup_lookup cs i c :
  NoDup (flat_map ids cs) → cs !! i = Some c →
  NoDup (ids c) ∧ ∀ x, x ∈ ids c → x ∉ flat_map ids (take i cs).
Proof.
  revert i. induction cs as [|c0 cs IH]; intros i Hnd Hc; [done|].
  simpl in Hnd. apply NoDup_app in Hnd as (Hnd0 & Hdisj & Hnd').
  destruct i as [|i]; simpl in *.
  - injection Hc as ->. split; [done|]. intros x _. apply not_elem_of_nil.
  - destruct (IH i Hnd' Hc) as [H1 H2]. split; [done|].
    intros x Hx. apply not_elem_of_app. split; [|by apply H2].
    intros Hx0. apply (Hdisj x Hx0).
    by eapply elem_of_flat_map_lookup.
Qed.

Lemma findPathIn_skip targetId cs i c cur :
  cs !! i = Some c →
  targetId ∉ flat_map ids (take i cs) →
  findPathIn targetId cs cur =
  match findPath targetId c cur with
  | Some result => Some result
  | None => findPathIn targetId (drop (S i) cs) cur
  end.
Proof.
  revert i. induction cs as [|c0 cs IH]; intros i Hc Hnot; [done|].
  destruct i as [|i]; simpl in *.
  - by injection Hc as ->.
  - apply not_elem_of_app in Hnot as [H0 Hrest].
    rewrite (findPath_absent _ _ _ H0). by apply IH.
Qed.

Lemma findPath_found pos :
  ∀ n target cur,
    NoDup (ids n) → node_at n pos = Some target →
    findPath (id target) n cur = Some (cur ++ chainAlong n pos).
Proof.
  induction pos as [|i pos IH]; intros n target cur Hnd Hat; simpl in *.
  - injection Hat as ->. rewrite findPath_eq. by rewrite decide_True.
  - destruct (children n !! i) as [c|] eqn:Hc; [|done].
    pose proof (node_at_ids _ _ _ Hat) as Hin.
    destruct (ids_NoDup_inv _ Hnd) as [Hroot Hkids].
    destruct (flat_map_ids_NoDup_lookup _ _ _ Hkids Hc) as [Hndc Hbefore].
    rewrite findPath_eq. rewrite decide_False.
    + rewrite (findPathIn_skip _ _ _ _ _ Hc (Hbefore _ Hin)).
      rewrite (IH c target _ Hndc Hat). by rewrite <- app_assoc.
    + intros Heq. apply Hroot. rewrite Heq.
      by eapply elem_of_flat_map_lookup.
Qed.

Lemma chainAlong_cons n pos : ∃ rest, chainAlong n pos = n :: rest.
Proof. destruct pos as [|i pos]; simpl; [eauto|]. destruct (children n !! i); eauto. Qed.

(** *** Segments *)

Lemma segment_parent path idx path' idx' node :
  path !! idx = path' !! idx' → segment path idx node = segment path' idx' node.
Proof. intros H. unfold segment. by rewrite H. Qed.

Lemma imap_segment_chain pos :
  ∀ n target pre,
    node_at n pos = Some target →
    imap (λ idx node, segment (pre ++ chainAlong n pos) (length pre + idx) node)
         (drop 1 (chainAlong n pos))
    = segmentsAlong (λ parent _ node, segment [parent] 0 node) n pos.
Proof.
  induction pos as [|i pos IH]; intros n target pre Hat; simpl in *; [done|].
  destruct (children n !! i) as [c|] eqn:Hc; [|done]. simpl.
  destruct (chainAlong_cons c pos) as [rest Hrest].
  rewrite Hrest. simpl. f_equal.
  - apply segment_parent. rewrite Nat.add_0_r.
    rewrite lookup_app_r by lia. by rewrite Nat.sub_diag.
  - specialize (IH c target (pre ++ [n]) Hat).
    rewrite Hrest in IH. simpl in IH. rewrite <- IH.
    apply imap_ext. intros j x _. simpl.
    rewrite <- app_assoc. simpl. f_equal. rewrite length_app. simpl. lia.
Qed.

Lemma split_go_head s :
  ∀ cur, ∃ rest, JS.split_go false cur s = (cur +:+ takeToken s) :: rest.
Proof.
  induction s as [|c s IH]; intros cur; simpl.
  - exists []. by rewrite string_app_nil_r.
  - destruct (JS.isWhiteSpace c).
    + eexists. by rewrite string_app_nil_r.
    + destruct (IH (cur +:+ String c "")) as [rest ->]. exists rest.
      by rewrite string_app_assoc.
Qed.

Lemma takeToken_trimEnd s : takeToken (JS.trimEnd s) = takeToken s.
Proof.
  induction s as [|c s IH]; [done|]. simpl.
  destruct (JS.trimEnd s) as [|c' t] eqn:Ht.
  - destruct (JS.isWhiteSpace c) eqn:Hc; simpl; [done|].
    rewrite Hc. by rewrite <- IH.
  - simpl. destruct (JS.isWhiteSpace c); [done|]. by rewrite <- IH.
Qed.

Lemma split_trim_head cls :
  ∃ rest, JS.split_ws (JS.trim cls) = firstClassToken cls :: rest.
Proof.
  unfold JS.split_ws, JS.trim, firstClassToken.
  destruct (split_go_head (JS.trimEnd (JS.trimStart cls)) "") as [rest ->].
  exists rest. by rewrite string_app_nil_l, takeToken_trimEnd.
Qed.

Lemma findIndex_position (cs : list ParsedNode) i node :
  NoDup (map id cs) → cs !! i = Some node →
  JS.findIndex (λ c, bool_decide (id c = id node))
               (filter (λ c, tag c = tag node) cs)
  = Some (length (filter (λ c, tag c = tag node) (take i cs))).
Proof.
  revert i. induction cs as [|c0 cs IH]; intros i Hnd Hc; [done|].
  simpl in Hnd. apply NoDup_cons in Hnd as [Hc0 Hnd].
  destruct i as [|i]; simpl in *.
  - injection Hc as ->. rewrite filter_cons_True by done. simpl.
    by rewrite bool_decide_eq_true_2.
  - assert (Hne : id c0 ≠ id node).
    { intros Heq. apply Hc0. rewrite Heq. apply list_elem_of_fmap.
      exists node. split; [done|]. by eapply list_elem_of_lookup_2. }
    destruct (decide (tag c0 = tag node)) as [Ht|Ht].
    + rewrite !filter_cons_True by done. simpl.
      rewrite bool_decide_eq_false_2 by done. by rewrite (IH i Hnd Hc).
    + rewrite !filter_cons_False by done. by apply IH.
Qed.

Lemma flat_map_ids_NoDup_heads cs :
  NoDup (flat_map ids cs) → NoDup (map id cs).
Proof.
  induction cs as [|c cs IH]; [constructor|]. simpl.
  intros (Hc & Hdisj & Hcs)%NoDup_app. constructor; [|by apply IH].
  intros (c' & Heq & Hin)%list_elem_of_fmap.
  apply (Hdisj (id c)).
  - destruct c. simpl. apply elem_of_cons. by left.
  - apply elem_of_flat_map. exists c'. split; [done|]. rewrite Heq.
    destruct c'. simpl. apply elem_of_cons. by left.
Qed.

Lemma segment_class tg cls :
  (let classes := JS.split_ws (JS.trim cls) in
   if bool_decide (0 < length classes) && JS.truthy_opt (classes !! 0)
   then tg +:+ "." +:+ default "" (classes !! 0) else tg)
  = if JS.truthy (firstClassToken cls)
    then tg +:+ "." +:+ firstClassToken cls else tg.
Proof.
  simpl. by destruct (split_trim_head cls) as [rest ->].
Qed.

Lemma segment_position parent i node :
  NoDup (map id (children parent)) → children parent !! i = Some node →
  (let siblings := filter (λ c, tag c = tag node) (children parent) in
   if bool_decide (1 < length siblings) then
     match JS.findIndex (λ c, bool_decide (id c = id node)) siblings with
     | Some indexInSiblings =>
         tag node +:+ ":nth-of-type(" +:+ pretty (indexInSiblings + 1) +:+ ")"
     | None => tag node
     end
   else tag node)
  = positionSegment parent i node.
Proof.
  intros Hnd Hc. simpl. unfold positionSegment, sameTagSiblings, positionOfType.
  rewrite (findIndex_position _ _ _ Hnd Hc). by rewrite Nat.add_1_r.
Qed.

Lemma segment_designed parent i node :
  NoDup (map id (children parent)) → children parent !! i = Some node →
  segment [parent] 0 node = designedSegment parent i node.
Proof.
  intros Hnd Hc. unfold segment, designedSegment, nonEmptyAttribute.
  change ([parent] !! 0) with (Some parent).
  pose proof (segment_position parent i node Hnd Hc) as Hpos.
  destruct (attributes node !! "id") as [v|];
    destruct (attributes node !! "class") as [cls|]; simpl;
    try (destruct (JS.truthy v); [done|]);
    try (pose proof (segment_class (tag node) cls) as Hcls;
         destruct (JS.truthy cls); [exact Hcls|]);
    exact Hpos.
Qed.

Lemma chainAlong_length pos :
  ∀ n target, node_at n pos = Some target → length (chainAlong n pos) = S (length pos).
Proof.
  induction pos as [|i pos IH]; intros n target Hat; simpl in *; [done|].
  destruct (children n !! i) as [c|]; [|done]. simpl. by rewrite (IH c target).
Qed.

Lemma segmentsAlong_designed pos :
  ∀ n target,
    NoDup (ids n) → node_at n pos = Some target →
    segmentsAlong (λ parent _ node, segment [parent] 0 node) n pos
    = segmentsAlong designedSegment n pos.
Proof.
  induction pos as [|i pos IH]; intros n target Hnd Hat; simpl in *; [done|].
  destruct (children n !! i) as [c|] eqn:Hc; [|done].
  destruct (ids_NoDup_inv _ Hnd) as [_ Hkids].
  destruct (flat_map_ids_NoDup_lookup _ _ _ Hkids Hc) as [Hndc _].
  rewrite (IH c target Hndc Hat). f_equal.
  apply segment_designed; [|done]. by apply flat_map_ids_NoDup_heads.
Qed.

(** C4, as the code has it: in a tree whose ids are pairwise distinct, for
    the node reached by a non-empty sequence of child indices,
    [generateCssSelector] on the id of that node returns the [" > "]-joined
    segments of the nodes from just below the root down to it.  A node with
    a non-empty [id] attribute contributes [tag#id]; else a node with a
    non-empty [class] attribute contributes [tag.firstClassToken], or the
    bare tag when the value has no token; else a node with more than one
    sibling of its tag contributes [tag:nth-of-type(k)], [k] its one-based
    position among the siblings of that tag; else the bare tag. *)
Theorem generateCssSelector_policy (root : ParsedNode) (pos : list nat)
    (target : ParsedNode) :
  NoDup (ids root) →
  node_at root pos = Some target →
  pos ≠ [] →
  generateCssSelector root (id target)
  = JS.join " > " (segmentsAlong designedSegment root pos).
Proof.
  intros Hnd Hat Hpos. unfold generateCssSelector.
  rewrite (findPath_found pos root target [] Hnd Hat). simpl ([] ++ _).
  pose proof (chainAlong_length pos root target Hat) as Hlen.
  rewrite bool_decide_eq_false_2 by lia.
  rewrite bool_decide_eq_false_2.
  - rewrite <- (segmentsAlong_designed pos root target Hnd Hat).
    rewrite <- (imap_segment_chain pos root target [] Hat). reflexivity.
  - rewrite length_drop, Hlen. destruct pos; [done|]. simpl. lia.
Qed.

(** The scenario of C4: in [<div><p>Hello</p><p>World</p></div>] the second
    [p] gets [div > p:nth-of-type(2)]. *)
Lemma generateCssSelector_policy_witness :
  ∃ target,
    NoDup (ids helloWorldRoot)
    ∧ node_at helloWorldRoot [0; 1] = Some target
    ∧ id target = "root-0-1"
    ∧ generateCssSelector helloWorldRoot (id target) = "div > p:nth-of-type(2)".
Proof.
  eexists. split; [apply parse_ids_NoDup|].
  split; [reflexivity|]. split; [reflexivity|].
  etrans.
  - apply (generateCssSelector_policy helloWorldRoot [0; 1]);
      [apply parse_ids_NoDup | reflexivity | discriminate].
  - vm_compute. reflexivity.
Defined.

(** C4, as stated, fails on empty attribute values.  In
    [<div id='' class='a'></div>] the [div] has an [id] attribute, which
    would give [div#]; the code passes over the empty value and answers
    [div.a].  In [<div><p class=' '>a</p><p>b</p></div>] the first [p] has a
    [class] attribute without a token and a sibling of its tag; the code
    answers the bare [p], neither [p.] with a class token nor
    [p:nth-of-type(1)]. *)
Lemma generateCssSelector_not_stated_policy :
  generateCssSelector (root (sampleParse "<div id='' class='a'></div>")) "root-0"
    = "div.a"
  ∧ JS.join " > "
      (segmentsAlong statedSegment (root (sampleParse "<div id='' class='a'></div>")) [0])
    = "div#"
  ∧ generateCssSelector
      (root (sampleParse "<div><p class=' '>a</p><p>b</p></div>")) "root-0-0"
    = "div > p"
  ∧ JS.join " > "
      (segmentsAlong statedSegment
         (root (sampleParse "<div><p class=' '>a</p><p>b</p></div>")) [0; 0])
    = "div > p."
  ∧ JS.join " > "
      (segmentsAlong positionSegment
         (root (sampleParse "<div><p class=' '>a</p><p>b</p></div>")) [0; 0])
    = "div > p:nth-of-type(1)".
Proof. repeat split; vm_compute; reflexivity. Qed.

(** ** Determinism of the identifiers *)

Lemma skeletonOf_eq tg ats kids :
  skeletonOf (mkElement tg ats kids) = SkElement (skeletonIn kids).
Proof. reflexivity. Qed.

Lemma idsFor_eq path kids :
  idsFor path (SkElement kids) = IdNode path (idsForIn path kids 0).
Proof.
  simpl. f_equal. generalize 0.
  induction kids as [|c kids IH]; intros k; [done|]. simpl. by rewrite IH.
Qed.

Lemma idTree_eq n : idTree n = IdNode (id n) (map idTree (children n)).
Proof. by destruct n. Qed.

Lemma separatorOf_element e : separatorOf (skeletonOf e) = "-".
Proof. by destruct e. Qed.

Lemma eachChild_idTree path cs :
  Forall (onElement (λ e, ∀ p, idTree (traverse e p).1 = idsFor p (skeletonOf e))) cs →
  ∀ k, map idTree (eachChild path cs k).1 = idsForIn path (skeletonIn cs) k.
Proof.
  intros Hcs. induction Hcs as [|n cs Hn _ IH]; intros k; [done|].
  destruct n as [e|data|data]; simpl.
  - by rewrite Hn, IH, separatorOf_element.
  - unfold nonBlank. destruct (JS.truthy (JS.trim data)); simpl; by rewrite IH.
  - apply IH.
Qed.

(** The ids [traverse] hands out are those of the skeleton of the element. *)
Lemma traverse_idTree e :
  ∀ path, idTree (traverse e path).1 = idsFor path (skeletonOf e).
Proof.
  induction e as [tg ats kids IH] using Element_nested_ind. intros path.
  rewrite traverse_eq, skeletonOf_eq, idsFor_eq, idTree_eq. simpl.
  by rewrite eachChild_idTree.
Qed.

Lemma eachBodyChild_idTree cs :
  ∀ k, map idTree (eachBodyChild cs k).1
       = idsForIn "root" (map skeletonOf (elementChildren cs)) k.
Proof.
  induction cs as [|n cs IH]; intros k; [done|].
  destruct n as [e|data|data]; simpl; [|apply IH|apply IH].
  rewrite traverse_idTree, IH, separatorOf_element. reflexivity.
Qed.

(** The ids of a parsed tree are those of the body's skeleton. *)
Lemma parseHtmlContent_idTree parseFromString serializeToString html :
  idTree (root (parseHtmlContent parseFromString serializeToString html))
  = IdNode "root" (idsForIn "root" (bodySkeleton (parseFromString html)) 0).
Proof.
  unfold parseHtmlContent, bodySkeleton. rewrite idTree_eq. simpl.
  by rewrite eachBodyChild_idTree.
Qed.

Lemma lookup_map {A B} (f : A → B) (l : list A) i :
  map f l !! i = f <$> l !! i.
Proof.
  revert i. induction l as [|x l IH]; intros [|i]; simpl; done.
Qed.

Lemma node_at_labelAt pos :
  ∀ n, id <$> node_at n pos = labelAt (idTree n) pos.
Proof.
  induction pos as [|i pos IH]; intros n; rewrite idTree_eq; simpl; [done|].
  rewrite lookup_map. destruct (children n !! i) as [c|]; simpl; [apply IH|done].
Qed.

(** C2: the ids [parseHtmlContent] hands out are a function of the shape of
    the document the host parser returns, and of nothing else: whenever two
    calls get documents whose bodies have the same skeleton (the same
    elements and kept text runs in the same places), the two trees carry the
    same id at every position.  Two calls on the identical input are the case
    in which the two documents are the same. *)
Theorem parse_ids_deterministic
    (parse1 parse2 : string → Document) (ser1 ser2 : Document → string)
    (html1 html2 : string) :
  bodySkeleton (parse1 html1) = bodySkeleton (parse2 html2) →
  ∀ pos,
    id <$> node_at (root (parseHtmlContent parse1 ser1 html1)) pos
    = id <$> node_at (root (parseHtmlContent parse2 ser2 html2)) pos.
Proof.
  intros Hshape pos.
  by rewrite !node_at_labelAt, !parseHtmlContent_idTree, Hshape.
Qed.

Lemma parse_ids_deterministic_witness :
  (id <$> node_at (root (sampleParse "<div><p>Hello</p><p>World</p></div>")) [0; 1]
   = id <$> node_at (root (parseHtmlContent sampleParser (λ _, "<html/>")
                             "<div><p>Hello</p><p>World</p></div>")) [0; 1])
  ∧ (id <$> node_at (root (sampleParse "<div><p>Hello</p><p>World</p></div>")) [0; 1; 0]
     = id <$> node_at (root (sampleParse "<div><p class=' '>a</p><p>b</p></div>")) [0; 1; 0]).
Proof.
  split.
  - apply (parse_ids_deterministic sampleParser sampleParser sampleSerializer
             (λ _, "<html/>") "<div><p>Hello</p><p>World</p></div>"
             "<div><p>Hello</p><p>World</p></div>" eq_refl [0; 1]).
  - apply (parse_ids_deterministic sampleParser sampleParser sampleSerializer
             sampleSerializer "<div><p>Hello</p><p>World</p></div>"
             "<div><p class=' '>a</p><p>b</p></div>" eq_refl [0; 1; 0]).
Defined.

(** ** The script stream *)

Lemma foldl_append_concat (chunks : list string) :
  ∀ acc, foldl (λ result chunk, result +:+ chunk) acc chunks
         = acc +:+ concatChunks chunks.
Proof.
  induction chunks as [|c chunks IH]; intros acc; simpl.
  - by rewrite string_app_nil_r.
  - by rewrite IH, string_app_assoc.
Qed.

(** C10: [generateScrapingScript] returns the chunks yielded by
    [generateScrapingScriptStream] on the same inputs, concatenated in order
    with nothing in between. *)
Theorem generateScrapingScript_concat API_KEY generateContentStream html targets :
  generateScrapingScript API_KEY generateContentStream html targets
  = concatChunks (generateScrapingScriptStream API_KEY generateContentStream html targets).
Proof.
  unfold generateScrapingScript. by rewrite foldl_append_concat.
Qed.

Example generateScrapingScript_three_chunks :
  generateScrapingScriptStream (Some "key") (λ _, Some threeChunks) "" []
    = ["function ex"; "tractData(doc"; ") {...}"]
  ∧ generateScrapingScript (Some "key") (λ _, Some threeChunks) "" []
    = "function extractData(doc) {...}".
Proof. split; vm_compute; reflexivity. Qed.

(** ** The overlays *)

Section OverlayFacts.

Variable DOMRect : Type.

Local Abbreviation unmounted t := (mkViewerState DOMRect t None None).
Local Abbreviation white r := (mkHighlight DOMRect r "#ffffff" (Some "Selected")).
Local Abbreviation grey r := (mkHighlight DOMRect r "#71717a" None).

Lemma truthy_nonempty i : i ≠ "" → JS.truthy i = true.
Proof. by destruct i. Qed.

(** An overlay whose dependencies have changed behaves as one just
    mounted. *)
Lemma Overlay_update_changed prev deps live :
  (∀ st, prev = Some st → lastDeps DOMRect st ≠ deps) →
  Overlay_update DOMRect prev deps live = Overlay_update DOMRect None deps live.
Proof.
  destruct prev as [st|]; [|done]. intros Hchanged. simpl.
  destruct (decide (lastDeps DOMRect st = deps)) as [Heq|]; [|done].
  by destruct (Hchanged st eq_refl).
Qed.

Lemma VisualViewer_update_changed s mounted live v :
  (∀ st, selectedOverlay DOMRect v = Some st →
         lastDeps DOMRect st ≠ (selectedId s, selectedActive s, scrollTrigger DOMRect v)) →
  (∀ st, hoveredOverlay DOMRect v = Some st →
         lastDeps DOMRect st ≠ (hoveredId s, hoveredActive s, scrollTrigger DOMRect v)) →
  VisualViewer_update DOMRect s mounted live v
  = VisualViewer_update DOMRect s mounted live (unmounted (scrollTrigger DOMRect v)).
Proof.
  intros Hsel Hhov. unfold VisualViewer_update.
  destruct (overlaysMounted s mounted); [|done]. simpl.
  by rewrite (Overlay_update_changed _ _ _ Hsel), (Overlay_update_changed _ _ _ Hhov).
Qed.

(** After a scroll or a resize of the frame both effects run again. *)
Lemma VisualViewer_update_scrolled s mounted live v :
  viewerConsistent DOMRect v →
  VisualViewer_update DOMRect s mounted live (handleScroll DOMRect v)
  = VisualViewer_update DOMRect s mounted live (unmounted (scrollTrigger DOMRect v + 1)).
Proof.
  intros [Hsel Hhov].
  rewrite VisualViewer_update_changed; [done| |]; simpl; intros st Hst Hdeps.
  - apply Hsel in Hst. rewrite Hdeps in Hst. simpl in Hst. lia.
  - apply Hhov in Hst. rewrite Hdeps in Hst. simpl in Hst. lia.
Qed.

Lemma viewerConsistent_initial : viewerConsistent DOMRect (initialViewer DOMRect).
Proof. by split. Qed.

Lemma viewerConsistent_handleScroll v :
  viewerConsistent DOMRect v → viewerConsistent DOMRect (handleScroll DOMRect v).
Proof.
  intros [Hsel Hhov]. split; simpl; intros st Hst;
    [apply Hsel in Hst | apply Hhov in Hst]; lia.
Qed.

Lemma viewerConsistent_update s mounted live v :
  viewerConsistent DOMRect v →
  viewerConsistent DOMRect (VisualViewer_update DOMRect s mounted live v).
Proof.
  intros [Hsel Hhov]. unfold VisualViewer_update.
  destruct (overlaysMounted s mounted); [|by split].
  split; simpl; intros st [= <-]; unfold Overlay_update.
  - destruct (selectedOverlay DOMRect v) as [st|] eqn:Hst; [|simpl; lia].
    destruct (decide _); [by apply Hsel|simpl; lia].
  - destruct (hoveredOverlay DOMRect v) as [st|] eqn:Hst; [|simpl; lia].
    destruct (decide _); [by apply Hhov|simpl; lia].
Qed.

(** What is drawn, whatever the overlays hold: at most two rectangles, of
    different colours, and only the selection when both cursors agree. *)
Lemma renderOverlays_bounds s mounted v :
  (length (renderOverlays DOMRect s mounted v) ≤ 2)%nat
  ∧ NoDup (h_color DOMRect <$> renderOverlays DOMRect s mounted v)
  ∧ (hoveredId s = selectedId s →
     Forall (λ h, h_label DOMRect h = Some "Selected")
       (renderOverlays DOMRect s mounted v)).
Proof.
  unfold renderOverlays, Overlay, hoveredActive.
  destruct (overlaysMounted s mounted);
    [|simpl; repeat split; [lia|constructor|by intros; constructor]].
  destruct (selectedOverlay DOMRect v) as [[[rs|] ds]|];
    destruct (hoveredOverlay DOMRect v) as [[[rh|] dh]|]; simpl;
    destruct (selectedActive s); simpl;
    destruct (JS.truthy_opt (hoveredId s)); simpl;
    destruct (bool_decide_reflect (hoveredId s = selectedId s)); simpl;
    (split; [lia|]);
    (split; [by apply (bool_decide_unpack _)|]);
    intros Heq; repeat constructor; done.
Qed.

(** Overlays whose effect has just run draw only what the live document
    resolves for the current cursors. *)
Lemma renderOverlays_mounted_sound s mounted live t h :
  h ∈ renderOverlays DOMRect s mounted
        (VisualViewer_update DOMRect s mounted live (unmounted t)) →
  ∃ lookup i,
    live = Some lookup ∧ i ≠ "" ∧ lookup i = Some (h_rect DOMRect h)
    ∧ ((h_color DOMRect h = "#ffffff" ∧ h_label DOMRect h = Some "Selected"
        ∧ selectedId s = Some i)
       ∨ (h_color DOMRect h = "#71717a" ∧ h_label DOMRect h = None
          ∧ hoveredId s = Some i ∧ selectedId s ≠ Some i)).
Proof.
  unfold renderOverlays, VisualViewer_update.
  destruct (overlaysMounted s mounted); [|by intros ?%elem_of_nil].
  unfold Overlay, Overlay_update, Overlay_effect, selectedActive, hoveredActive. simpl.
  destruct live as [lookup|].
  2:{ destruct (selectedId s), (hoveredId s); simpl; by intros ?%elem_of_nil. }
  assert (Hne : ∀ i, JS.truthy i = true → i ≠ "") by (by intros [|??]).
  destruct (selectedId s) as [sel|]; destruct (hoveredId s) as [hov|]; simpl;
    repeat match goal with
    | |- context [JS.truthy ?x] => destruct (JS.truthy x) eqn:?; simpl
    | |- context [lookup ?x] => destruct (lookup x) eqn:?; simpl
    | |- context [bool_decide ?P] => destruct (bool_decide_reflect P); simpl
    end;
    intros Hin;
    repeat (apply elem_of_cons in Hin as [->|Hin]);
    try (by apply elem_of_nil in Hin);
    simpl; exists lookup;
    first [ exists sel; split; [done|]; split; [by apply Hne|]; split; [done|];
            left; done
          | exists hov; split; [done|]; split; [by apply Hne|]; split; [done|];
            right; repeat split; congruence ].
Qed.

(** They draw the selection in white with its label when the live document
    resolves it, *)
Lemma renderOverlays_mounted_selected s mounted lookup t i r :
  overlaysMounted s mounted = true →
  selectedId s = Some i → i ≠ "" → lookup i = Some r →
  white r ∈ renderOverlays DOMRect s mounted
              (VisualViewer_update DOMRect s mounted (Some lookup) (unmounted t)).
Proof.
  intros Hm Hsel Hi%truthy_nonempty Hr. unfold renderOverlays, VisualViewer_update.
  rewrite Hm. unfold Overlay, Overlay_update, Overlay_effect, selectedActive. simpl.
  rewrite Hsel. simpl. rewrite Hi, Hr. simpl. apply elem_of_cons. by left.
Qed.

(** and the hover cursor in grey without a label when the live document
    resolves it and it is not the selection. *)
Lemma renderOverlays_mounted_hovered s mounted lookup t i r :
  overlaysMounted s mounted = true →
  hoveredId s = Some i → selectedId s ≠ Some i → i ≠ "" → lookup i = Some r →
  grey r ∈ renderOverlays DOMRect s mounted
             (VisualViewer_update DOMRect s mounted (Some lookup) (unmounted t)).
Proof.
  intros Hm Hhov Hsel Hi%truthy_nonempty Hr. unfold renderOverlays, VisualViewer_update.
  rewrite Hm. unfold Overlay, Overlay_update, Overlay_effect, hoveredActive. simpl.
  rewrite Hhov. simpl. rewrite Hi, Hr. simpl.
  rewrite bool_decide_eq_false_2 by congruence. simpl.
  destruct (match selectedId s with Some _ => _ | None => _ end) as [rs|];
    [destruct (selectedActive s)|]; simpl;
    repeat (apply elem_of_cons; first [by left | right]).
Qed.

(** While the overlays are not rendered nothing is drawn and their state is
    dropped. *)
Lemma VisualViewer_update_unmounts s mounted live v :
  overlaysMounted s mounted = false →
  VisualViewer_update DOMRect s mounted live v = unmounted (scrollTrigger DOMRect v)
  ∧ renderOverlays DOMRect s mounted (VisualViewer_update DOMRect s mounted live v) = [].
Proof. intros Hm. unfold VisualViewer_update, renderOverlays. by rewrite Hm. Qed.

Lemma renderOverlays_inspect_only s mounted v h :
  h ∈ renderOverlays DOMRect s mounted v → isInspectMode s = true.
Proof.
  unfold renderOverlays, overlaysMounted.
  destruct (isInspectMode s); [done|]. simpl. by intros ?%elem_of_nil.
Qed.

End OverlayFacts.

(** ** The inspector state *)

Section AppFacts.

Variable parseFromString : string → Document.
Variable serializeToString : Document → string.
Variable Container : Type.
Variable LiveElement : Type.
Variable getContainer : option Container.
Variable querySelector : Container → string → option LiveElement.
Variable finder : LiveElement → Container → option string.

Local Abbreviation stepOn :=
  (step parseFromString serializeToString Container LiveElement
        getContainer querySelector finder).
Local Abbreviation addTarget :=
  (handleAddTarget parseFromString serializeToString Container LiveElement
                   getContainer querySelector finder).
Local Abbreviation selectedNodeOf := (selectedNode parseFromString serializeToString).
Local Abbreviation currentSelectorOf :=
  (currentSelector Container LiveElement getContainer querySelector finder).

(** A successful load clears the selection. *)
Lemma handleUrlSubmit_clears_selection url content s :
  selectedId (handleUrlSubmit_resume url (Fulfilled content) s).1 = None.
Proof. done. Qed.

(** No outcome of a load touches the hover cursor. *)
Lemma handleUrlSubmit_keeps_hover url o s :
  hoveredId (handleUrlSubmit_resume url o s).1 = hoveredId s.
Proof. by destruct o. Qed.

(** C8: the two buttons of the mode toggle leave [selectedId] and
    [hoveredId] as they are.  In Interact mode the viewer draws no overlay
    and unmounts both, whatever they held; an overlay that is drawn is drawn
    in Inspect mode; and after switching back to Inspect, with the frame
    mounted and no resize going on, a selection that the live document
    resolves is drawn again in white with its label, and a hover cursor that
    it resolves and that is not the selection is drawn again in grey. *)
Theorem mode_switch_frame (sys : System) :
  selectedId (app (stepOn sys ClickInteract)) = selectedId (app sys)
  ∧ hoveredId (app (stepOn sys ClickInteract)) = hoveredId (app sys)
  ∧ selectedId (app (stepOn sys ClickInspect)) = selectedId (app sys)
  ∧ hoveredId (app (stepOn sys ClickInspect)) = hoveredId (app sys)
  ∧ isInspectMode (app (stepOn sys ClickInteract)) = false
  ∧ isInspectMode (app (stepOn sys ClickInspect)) = true
  ∧ (∀ DOMRect mounted live v,
       let interact := app (stepOn sys ClickInteract) in
       let v' := VisualViewer_update DOMRect interact mounted live v in
       renderOverlays DOMRect interact mounted v' = []
       ∧ selectedOverlay DOMRect v' = None
       ∧ hoveredOverlay DOMRect v' = None)
  ∧ (∀ DOMRect mounted v h,
       h ∈ renderOverlays DOMRect (app sys) mounted v →
       isInspectMode (app sys) = true)
  ∧ (∀ DOMRect live lookup v i r,
       let interact := app (stepOn sys ClickInteract) in
       let back := app (stepOn (stepOn sys ClickInteract) ClickInspect) in
       let shown :=
         renderOverlays DOMRect back true
           (VisualViewer_update DOMRect back true (Some lookup)
              (VisualViewer_update DOMRect interact true live v)) in
       isResizing (app sys) = false → i ≠ "" → lookup i = Some r →
       (selectedId (app sys) = Some i →
        mkHighlight DOMRect r "#ffffff" (Some "Selected") ∈ shown)
       ∧ (hoveredId (app sys) = Some i → selectedId (app sys) ≠ Some i →
          mkHighlight DOMRect r "#71717a" None ∈ shown)).
Proof.
  do 6 (split; [done|]). split; [|split].
  - intros DOMRect mounted live v interact v'.
    destruct (VisualViewer_update_unmounts DOMRect interact mounted live v)
      as [Hv Hshown]; [done|].
    subst v'. rewrite Hshown, Hv. done.
  - intros DOMRect mounted v h. apply renderOverlays_inspect_only.
  - intros DOMRect live lookup v i r interact back shown Hres Hi Hr.
    assert (Hm : overlaysMounted back true = true).
    { unfold overlaysMounted. subst back. simpl. by rewrite Hres. }
    destruct (VisualViewer_update_unmounts DOMRect interact true live v)
      as [Hv _]; [done|].
    subst shown. rewrite Hv. split.
    + intros Hsel. by apply (renderOverlays_mounted_selected DOMRect back true lookup _ i).
    + intros Hhov Hsel. by apply (renderOverlays_mounted_hovered DOMRect back true lookup _ i).
Qed.

(** C9, as the code has it: [handleAddTarget] changes nothing unless the
    selection id and the field name are both non-empty; otherwise it appends
    one entry at the end of the targets, carrying the selection id, the
    current selector, the field name, the description typed or, when that is
    empty, ["Get text content"], and as example value the first 30 code
    units of the [textContent] of the selected node or, when the node is not
    found or has no or an empty [textContent], ["Element"]; both input
    fields are emptied. *)
Theorem handleAddTarget_effect (s : AppState) :
  (JS.truthy_opt (selectedId s) && JS.truthy (targetName s) = false →
   addTarget s = s)
  ∧ (∀ sid, selectedId s = Some sid → sid ≠ "" → targetName s ≠ "" →
     scrapeTargets (addTarget s)
     = scrapeTargets s ++
       [ {| target_id := sid;
            selector := currentSelectorOf s;
            name := targetName s;
            description :=
              if decide (targetDescription s = "") then "Get text content"
              else targetDescription s;
            exampleValue :=
              match selectedNodeOf s ≫= textContent with
              | Some text =>
                  if decide (text = "") then "Element"
                  else JS.substring0 30 text
              | None => "Element"
              end |} ]
     ∧ targetName (addTarget s) = ""
     ∧ targetDescription (addTarget s) = "").
Proof.
  split.
  - unfold handleAddTarget. destruct (selectedId s) as [sid|]; [|done].
    simpl. destruct (JS.truthy sid), (JS.truthy (targetName s)); done.
  - intros sid Hsel Hsid Hname. unfold handleAddTarget. rewrite Hsel.
    destruct sid as [|c sid]; [done|].
    destruct (targetName s) as [|c' nm] eqn:Hnm; [done|]. simpl.
    repeat split. do 2 f_equal.
    unfold preview. f_equal.
    + by destruct (targetDescription s).
    + destruct (selectedNode _ _ s ≫= textContent) as [[|c0 text]|]; done.
Qed.

(** Submissions that go through the enabled submit button never overlap. *)
Lemma handleAddTarget_isLoadingUrl s :
  isLoadingUrl (addTarget s) = isLoadingUrl s.
Proof.
  unfold handleAddTarget. destruct (selectedId s) as [sid|]; [|done].
  by destruct (negb (JS.truthy sid) || negb (JS.truthy (targetName s))).
Qed.

Lemma step_oneFetchAtMost sys ev :
  oneFetchAtMost sys →
  (ev = SubmitUrl → submitButtonEnabled (app sys) = true) →
  oneFetchAtMost (stepOn sys ev).
Proof.
  unfold oneFetchAtMost. intros Hinv Hgate.
  destruct ev; simpl; try done.
  - unfold handleUrlSubmit_begin.
    specialize (Hgate eq_refl). unfold submitButtonEnabled in Hgate.
    apply andb_prop in Hgate as [Hurl Hload]. rewrite Hurl. simpl.
    destruct Hinv as [[_ ->]|[Hl _]]; [by right|].
    rewrite Hl in Hload. discriminate.
  - destruct Hinv as [[Hl Hin]|[Hl Hin]].
    + rewrite Hin. simpl. rewrite Hin. by left.
    + destruct (inFlight sys) as [|p [|q rest]] eqn:Hfl; try discriminate.
      destruct k as [|k]; simpl; [|rewrite Hfl; by right].
      left. split; [|done]. by destruct (fetchUrlContent r).
  - by destruct (isInspectMode (app sys)).
  - by destruct (isInspectMode (app sys)).
  - by destruct (isInspectMode (app sys) && JS.truthy_opt target).
  - by rewrite handleAddTarget_isLoadingUrl.
Qed.

Lemma gated_submissions_never_overlap evs :
  ∀ sys,
    oneFetchAtMost sys →
    submissionsGated stepOn sys evs = true →
    oneFetchAtMost
      (run parseFromString serializeToString Container LiveElement
           getContainer querySelector finder sys evs).
Proof.
  induction evs as [|ev evs IH]; intros sys Hinv Hgated; [done|].
  simpl in *. apply andb_prop in Hgated as [Hev Hrest].
  apply IH; [|done]. apply step_oneFetchAtMost; [done|].
  intros ->. done.
Qed.

(** ** Loads never overtake each other *)

Local Abbreviation runOn :=
  (run parseFromString serializeToString Container LiveElement
       getContainer querySelector finder).
Local Abbreviation issuedFrom s :=
  (mkPendingFetch (urlInput s) (targetUrlOf (urlInput s))).











End AppFacts.

(** C6, on the code: the pointer rests on the second [p] of the tree view
    when a URL is loaded.  Before the load both cursors point into the tree;
    after it the selection is cleared but [hoveredId] still holds
    [root-0-1], which no node of the new tree carries. *)
Lemma url_load_leaves_stale_hover :
  cursorsInTree sampleParser sampleSerializer
    (app (sampleRun sampleBoot [TreeMouseEnter "root-0-1"]))
  ∧ rawHtml (app (sampleRun sampleBoot hoverThenLoad)) = "Hello<p>x</p>"
  ∧ selectedId (app (sampleRun sampleBoot hoverThenLoad)) = None
  ∧ hoveredId (app (sampleRun sampleBoot hoverThenLoad)) = Some "root-0-1"
  ∧ ¬ idInCurrentTree sampleParser sampleSerializer
        (app (sampleRun sampleBoot hoverThenLoad)) "root-0-1"
  ∧ ¬ cursorsInTree sampleParser sampleSerializer
        (app (sampleRun sampleBoot hoverThenLoad)).
Proof.
  assert (Hstale : ¬ idInCurrentTree sampleParser sampleSerializer
                     (app (sampleRun sampleBoot hoverThenLoad)) "root-0-1").
  { unfold idInCurrentTree. absent_from_list. }
  split; [|repeat split; try reflexivity; try exact Hstale].
  - split; intros i; [discriminate|].
    intros [= <-]. unfold idInCurrentTree. vm_compute.
    apply list_elem_of_In. simpl. tauto.
  - intros [_ Hhov]. apply Hstale. by apply Hhov.
Qed.


Lemma mode_switch_frame_witness :
  hoveredId (app (sampleStep (sampleStep sampleBoot (TreeMouseEnter "root-0-1"))
                             ClickInteract)) = Some "root-0-1"
  ∧ renderOverlays nat
      (app (sampleStep (sampleStep sampleBoot (TreeMouseEnter "root-0-1")) ClickInteract))
      true
      (VisualViewer_update nat
         (app (sampleStep (sampleStep sampleBoot (TreeMouseEnter "root-0-1"))
                          ClickInteract))
         true (Some sampleLookup) (initialViewer nat)) = []
  ∧ mkHighlight nat 7 "#71717a" None
    ∈ renderOverlays nat
        (app (sampleStep (sampleStep (sampleStep sampleBoot (TreeMouseEnter "root-0-1"))
                                     ClickInteract) ClickInspect))
        true
        (VisualViewer_update nat
           (app (sampleStep (sampleStep (sampleStep sampleBoot (TreeMouseEnter "root-0-1"))
                                        ClickInteract) ClickInspect))
           true (Some sampleLookup)
           (VisualViewer_update nat
              (app (sampleStep (sampleStep sampleBoot (TreeMouseEnter "root-0-1"))
                               ClickInteract))
              true (Some sampleLookup) (initialViewer nat))).
Proof.
  pose proof (mode_switch_frame sampleParser sampleSerializer unit unit None
                (λ _ _, None) (λ _ _, None)
                (sampleStep sampleBoot (TreeMouseEnter "root-0-1")))
    as (_ & Hhover & _ & _ & _ & _ & Hinteract & _ & Hback).
  split; [exact Hhover|]. split.
  - exact (proj1 (Hinteract nat true (Some sampleLookup) (initialViewer nat))).
  - apply (proj2 (Hback nat (Some sampleLookup) sampleLookup (initialViewer nat)
                    "root-0-1" 7 eq_refl ltac:(discriminate) eq_refl));
      [reflexivity | discriminate].
Defined.

(** C9, as stated, fails on the default instruction: with the description
    left blank the entry gets ["Get text content"], with a capital. *)
Lemma default_description_differs :
  targetDescription readyToAdd = ""
  ∧ description <$> last (scrapeTargets (sampleAddTarget readyToAdd))
    = Some "Get text content"
  ∧ description <$> last (scrapeTargets (sampleAddTarget readyToAdd))
    ≠ Some "get text content".
Proof. repeat split; try (vm_compute; reflexivity). vm_compute. discriminate. Qed.

Lemma handleAddTarget_effect_witness :
  sampleAddTarget (initialState "<div><p>Hello</p><p>World</p></div>")
    = initialState "<div><p>Hello</p><p>World</p></div>"
  ∧ scrapeTargets (sampleAddTarget readyToAdd)
    = [ {| target_id := "root-0-0-txt-0"; selector := ""; name := "title";
           description := "Get text content"; exampleValue := "Hello" |} ]
  ∧ targetName (sampleAddTarget readyToAdd) = ""
  ∧ targetDescription (sampleAddTarget readyToAdd) = "".
Proof.
  split.
  - apply (proj1 (handleAddTarget_effect sampleParser sampleSerializer unit unit
                      None (λ _ _, None) (λ _ _, None)
                      (initialState "<div><p>Hello</p><p>World</p></div>"))).
    reflexivity.
  - apply (proj2 (handleAddTarget_effect sampleParser sampleSerializer unit unit
                      None (λ _ _, None) (λ _ _, None) readyToAdd)
                 "root-0-0-txt-0");
      [reflexivity | discriminate | discriminate].
Defined.

(** ** More about [parseHtmlContent] *)

Lemma node_at_distinct_ids pos1 :
  ∀ n pos2 a b,
    NoDup (ids n) →
    node_at n pos1 = Some a → node_at n pos2 = Some b →
    id a = id b → pos1 = pos2.
Proof.
  induction pos1 as [|i pos1 IH]; intros n pos2 a b Hnd Ha Hb Hid.
  - destruct pos2 as [|j pos2]; [done|]. simpl in *. injection Ha as <-.
    destruct (children n !! j) as [d|] eqn:Hd; [|done].
    destruct (ids_NoDup_inv _ Hnd) as [Hroot _]. exfalso. apply Hroot.
    rewrite Hid. eapply elem_of_flat_map_lookup; [done|]. by eapply node_at_ids.
  - simpl in Ha. destruct (children n !! i) as [c|] eqn:Hc; [|done].
    destruct (ids_NoDup_inv _ Hnd) as [Hroot Hkids].
    destruct pos2 as [|j pos2]; simpl in Hb.
    { injection Hb as <-. exfalso. apply Hroot. rewrite <- Hid.
      eapply elem_of_flat_map_lookup; [done|]. by eapply node_at_ids. }
    destruct (children n !! j) as [d|] eqn:Hd; [|done].
    pose proof (node_at_ids _ _ _ Ha) as Hina.
    pose proof (node_at_ids _ _ _ Hb) as Hinb.
    destruct (flat_map_ids_NoDup_lookup _ _ _ Hkids Hc) as [Hndc Hbc].
    destruct (flat_map_ids_NoDup_lookup _ _ _ Hkids Hd) as [Hndd Hbd].
    destruct (decide (i = j)) as [->|Hij].
    + rewrite Hc in Hd. injection Hd as <-. f_equal. by eapply IH.
    + exfalso. destruct (decide (i < j)) as [Hlt|Hge].
      * apply (Hbd _ Hinb). rewrite <- Hid.
        eapply (elem_of_flat_map_lookup _ _ i c); [|done].
        by rewrite lookup_take_lt.
      * apply (Hbc _ Hina). rewrite Hid.
        eapply (elem_of_flat_map_lookup _ _ j d); [|done].
        rewrite lookup_take_lt; [done|lia].
Qed.

(** X1: in a tree built by [parseHtmlContent] no two positions carry the
    same id: two paths of child indices that end at nodes with equal ids
    are the same path. *)
Theorem parse_id_determines_position parseFromString serializeToString html
    (pos1 pos2 : list nat) (a b : ParsedNode) :
  node_at (root (parseHtmlContent parseFromString serializeToString html)) pos1 = Some a →
  node_at (root (parseHtmlContent parseFromString serializeToString html)) pos2 = Some b →
  id a = id b →
  pos1 = pos2.
Proof.
  intros Ha Hb Hid. eapply node_at_distinct_ids; [|done..].
  apply parse_ids_NoDup.
Qed.

Lemma parse_id_determines_position_witness :
  ∃ a b,
    node_at helloWorldRoot [0; 1] = Some a
    ∧ node_at helloWorldRoot [0; 1] = Some b
    ∧ id a = id b
    ∧ [0; 1] = [0; 1].
Proof.
  eexists _, _. split; [reflexivity|]. split; [reflexivity|]. split; [reflexivity|].
  apply (parse_id_determines_position sampleParser sampleSerializer
           "<div><p>Hello</p><p>World</p></div>" [0; 1] [0; 1] _ _ eq_refl eq_refl eq_refl).
Defined.

(** *** The identifier written on the document *)

Lemma getAttribute_setAttribute_eq ats name value :
  getAttribute (setAttribute ats name value) name = Some value.
Proof.
  induction ats as [|[k v] ats IH]; simpl.
  - by rewrite decide_True.
  - destruct (decide (k = name)) as [->|Hne]; simpl.
    + by rewrite decide_True.
    + by rewrite decide_False.
Qed.

Lemma getAttribute_setAttribute_ne ats name value key :
  key ≠ name →
  getAttribute (setAttribute ats name value) key = getAttribute ats key.
Proof.
  intros Hne. induction ats as [|[k v] ats IH]; simpl.
  - by rewrite decide_False.
  - destruct (decide (k = name)) as [->|Hk]; simpl.
    + by rewrite !decide_False.
    + destruct (decide (k = key)); [done|]. apply IH.
Qed.

Lemma inspectorIds_eq tg ats kids :
  inspectorIds (mkElement tg ats kids)
  = getAttribute ats INSPECTOR_ID :: inspectorIdsIn kids.
Proof.
  reflexivity.
Qed.

Lemma elementIds_eq n :
  elementIds n = if isTextRun n then [] else id n :: flat_map elementIds (children n).
Proof. by destruct n. Qed.

Lemma eachChild_inspectorIds path cs k :
  Forall (onElement (λ e, ∀ p, inspectorIds (traverse e p).2
                              = Some <$> elementIds (traverse e p).1)) cs →
  inspectorIdsIn (eachChild path cs k).2
  = Some <$> flat_map elementIds (eachChild path cs k).1.
Proof.
  intros Hcs. revert k. induction Hcs as [|n cs Hn _ IH]; intros k; [done|].
  destruct n as [e|data|data]; simpl.
  - by rewrite fmap_app, Hn, IH.
  - destruct (JS.truthy (JS.trim data)); simpl; apply IH.
  - apply IH.
Qed.

Lemma traverse_inspectorIds e :
  ∀ path, inspectorIds (traverse e path).2 = Some <$> elementIds (traverse e path).1.
Proof.
  induction e as [tg ats kids IH] using Element_nested_ind. intros path.
  rewrite traverse_eq. cbn [fst snd]. rewrite inspectorIds_eq, elementIds_eq.
  cbn [isTextRun textContent id children]. rewrite fmap_cons.
  rewrite getAttribute_setAttribute_eq. f_equal. by apply eachChild_inspectorIds.
Qed.

Lemma eachBodyChild_inspectorIds cs k :
  inspectorIdsIn (eachBodyChild cs k).2
  = Some <$> flat_map elementIds (eachBodyChild cs k).1.
Proof.
  revert k. induction cs as [|n cs IH]; intros k; [done|].
  destruct n as [e|data|data]; simpl; [|apply IH..].
  by rewrite fmap_app, traverse_inspectorIds, IH.
Qed.

(** X2: the document that [parseHtmlContent] serializes carries, on every
    element below [body] and in document order, exactly the ids of the
    element nodes of the tree: each rendered element and its tree node are
    tied by the same identifier. *)
Theorem parse_injects_node_ids parseFromString serializeToString html :
  injectedHtml (parseHtmlContent parseFromString serializeToString html)
  = serializeToString (injectedDocument parseFromString html)
  ∧ inspectorIdsIn (childNodes (body (injectedDocument parseFromString html)))
    = Some <$> flat_map elementIds
                 (children (root (parseHtmlContent parseFromString serializeToString html))).
Proof.
  split; [reflexivity|]. unfold injectedDocument, parseHtmlContent. simpl.
  apply eachBodyChild_inspectorIds.
Qed.

Lemma filter_setAttribute ats value :
  filter (λ a : string * string, a.1 ≠ INSPECTOR_ID) (setAttribute ats INSPECTOR_ID value)
  = filter (λ a : string * string, a.1 ≠ INSPECTOR_ID) ats.
Proof.
  induction ats as [|[k v] ats IH]; simpl.
  - by rewrite filter_cons_False by (simpl; auto).
  - destruct (decide (k = INSPECTOR_ID)) as [->|Hne].
    + by rewrite !filter_cons_False by (simpl; auto).
    + rewrite !filter_cons_True by done. by rewrite IH.
Qed.

Lemma withoutInspectorId_eq tg ats kids :
  withoutInspectorId (mkElement tg ats kids)
  = mkElement tg (filter (λ a : string * string, a.1 ≠ INSPECTOR_ID) ats)
      (map withoutInspectorIdNode kids).
Proof. reflexivity. Qed.

Lemma eachChild_frame path cs k :
  Forall (onElement (λ e, ∀ p, withoutInspectorId (traverse e p).2 = withoutInspectorId e)) cs →
  map withoutInspectorIdNode (eachChild path cs k).2 = map withoutInspectorIdNode cs.
Proof.
  intros Hcs. revert k. induction Hcs as [|n cs Hn _ IH]; intros k; [done|].
  destruct n as [e|data|data]; simpl.
  - by rewrite Hn, IH.
  - destruct (JS.truthy (JS.trim data)); simpl; by rewrite IH.
  - by rewrite IH.
Qed.

Lemma traverse_frame e :
  ∀ path, withoutInspectorId (traverse e path).2 = withoutInspectorId e.
Proof.
  induction e as [tg ats kids IH] using Element_nested_ind. intros path.
  rewrite traverse_eq. cbn [snd]. rewrite !withoutInspectorId_eq.
  rewrite filter_setAttribute. f_equal. by apply eachChild_frame.
Qed.

Lemma eachBodyChild_frame cs k :
  map withoutInspectorIdNode (eachBodyChild cs k).2 = map withoutInspectorIdNode cs.
Proof.
  revert k. induction cs as [|n cs IH]; intros k; [done|].
  destruct n as [e|data|data]; simpl; rewrite ?traverse_frame; by rewrite IH.
Qed.

(** X3: writing the identifiers changes nothing else.  The serialized
    document has the [head] of the parsed one, the tag and the attributes
    of its [body], and below [body] the same nodes in the same order with
    the same tag names, text and attributes, the inspector identifier
    apart. *)
Theorem parse_injection_frame parseFromString html :
  head (injectedDocument parseFromString html) = head (parseFromString html)
  ∧ tagName (body (injectedDocument parseFromString html))
    = tagName (body (parseFromString html))
  ∧ attrs (body (injectedDocument parseFromString html))
    = attrs (body (parseFromString html))
  ∧ map withoutInspectorIdNode (childNodes (body (injectedDocument parseFromString html)))
    = map withoutInspectorIdNode (childNodes (body (parseFromString html))).
Proof.
  repeat split. unfold injectedDocument. simpl. apply eachBodyChild_frame.
Qed.

(** *** Attributes *)

Lemma setAttribute_names_NoDup ats name value :
  NoDup ats.*1 → NoDup (setAttribute ats name value).*1.
Proof.
  induction ats as [|[k v] ats IH]; simpl; intros Hnd.
  - apply NoDup_singleton.
  - apply NoDup_cons in Hnd as [Hk Hnd].
    destruct (decide (k = name)) as [->|Hne]; simpl.
    + by constructor.
    + constructor; [|by apply IH].
      intros ([k' v'] & Heq & Hin)%list_elem_of_fmap. simpl in Heq. subst k'.
      apply Hk. clear IH Hk Hnd.
      induction ats as [|[k0 v0] ats IH]; simpl in *.
      * apply list_elem_of_singleton in Hin. congruence.
      * destruct (decide (k0 = name)) as [->|Hk0].
        -- apply elem_of_cons in Hin as [[= -> _]|Hin]; apply elem_of_cons; [by left|].
           right. apply list_elem_of_fmap. by exists (k, v').
        -- apply elem_of_cons in Hin as [[= -> _]|Hin]; apply elem_of_cons; [by left|].
           right. by apply IH.
Qed.

Lemma getAttribute_None ats key : key ∉ ats.*1 → getAttribute ats key = None.
Proof.
  induction ats as [|[k v] ats IH]; [done|]. simpl.
  intros [Hne Hnot]%not_elem_of_cons. rewrite decide_False by done. by apply IH.
Qed.

Lemma collectAttributes_lookup ats key :
  NoDup ats.*1 →
  ∀ acc,
    foldl collectAttribute acc ats !! key
    = if decide (key = INSPECTOR_ID ∨ key = "__proto__") then acc !! key
      else match getAttribute ats key with
           | Some v => Some v
           | None => acc !! key
           end.
Proof.
  induction ats as [|[k v] ats IH]; intros Hnd acc; simpl.
  - by destruct (decide _).
  - apply NoDup_cons in Hnd as [Hk Hnd]. rewrite (IH Hnd). clear IH.
    unfold collectAttribute. simpl.
    destruct (decide (key = INSPECTOR_ID ∨ key = "__proto__")) as [Hsp|Hsp].
    + destruct (decide (k = INSPECTOR_ID)); [done|].
      destruct (decide (k = "__proto__")); [done|].
      rewrite lookup_insert_ne; [done|]. intros ->. tauto.
    + destruct (decide (k = key)) as [->|Hne].
      * simpl in Hk. rewrite (getAttribute_None _ _ Hk).
        rewrite decide_False by tauto. rewrite decide_False by tauto.
        by rewrite lookup_insert_eq.
      * destruct (getAttribute ats key); [done|].
        destruct (decide (k = INSPECTOR_ID)); [done|].
        destruct (decide (k = "__proto__")); [done|].
        by rewrite lookup_insert_ne.
Qed.

(** X4: for an element whose attribute names are pairwise distinct, the
    [attributes] of its tree node map every attribute name to the value the
    element has for it, the injected [data-inspector-id] and a name
    [__proto__] apart, which are never in the map. *)
Theorem traverse_attributes (e : Element) (path key : string) :
  NoDup (attrs e).*1 →
  attributes (traverse e path).1 !! key
  = if decide (key = INSPECTOR_ID ∨ key = "__proto__") then None
    else getAttribute (attrs e) key.
Proof.
  intros Hnd. destruct e as [tg ats kids]. rewrite traverse_eq. simpl in *.
  unfold collectAttributes.
  rewrite collectAttributes_lookup by by apply setAttribute_names_NoDup.
  destruct (decide _) as [|Hsp]; [done|].
  rewrite getAttribute_setAttribute_ne by tauto.
  by destruct (getAttribute ats key).
Qed.

Lemma traverse_attributes_witness :
  attributes (traverse (mkElement "A" [("href", "/x"); ("data-inspector-id", "old")] [])
                       "root-0").1 !! "href" = Some "/x"
  ∧ attributes (traverse (mkElement "A" [("href", "/x"); ("data-inspector-id", "old")] [])
                         "root-0").1 !! "data-inspector-id" = None.
Proof.
  split.
  - apply (traverse_attributes
             (mkElement "A" [("href", "/x"); ("data-inspector-id", "old")] [])
             "root-0" "href").
    apply (bool_decide_unpack _). vm_compute. exact I.
  - apply (traverse_attributes
             (mkElement "A" [("href", "/x"); ("data-inspector-id", "old")] [])
             "root-0" "data-inspector-id").
    apply (bool_decide_unpack _). vm_compute. exact I.
Defined.

(** *** Tags *)

Lemma lowerChar_idemp c : JS.lowerChar (JS.lowerChar c) = JS.lowerChar c.
Proof. destruct c as [[] [] [] [] [] [] [] []]; reflexivity. Qed.

Lemma toLowerCase_idemp s : JS.toLowerCase (JS.toLowerCase s) = JS.toLowerCase s.
Proof.
  induction s as [|c s IH]; [done|]. simpl. by rewrite lowerChar_idemp, IH.
Qed.

Lemma eachChild_lowercase path cs k :
  Forall (onElement (λ e, ∀ p, Forall (λ n, JS.toLowerCase (tag n) = tag n)
                                      (nodes (traverse e p).1))) cs →
  Forall (λ n, JS.toLowerCase (tag n) = tag n) (flat_map nodes (eachChild path cs k).1).
Proof.
  intros Hcs. revert k. induction Hcs as [|n cs Hn _ IH]; intros k; [constructor|].
  destruct n as [e|data|data]; simpl.
  - apply Forall_app. split; [apply Hn | apply IH].
  - destruct (JS.truthy (JS.trim data)); simpl; [|apply IH].
    constructor; [done|apply IH].
  - apply IH.
Qed.

Lemma traverse_lowercase e :
  ∀ path, Forall (λ n, JS.toLowerCase (tag n) = tag n) (nodes (traverse e path).1).
Proof.
  induction e as [tg ats kids IH] using Element_nested_ind. intros path.
  rewrite traverse_eq. simpl. constructor; [apply toLowerCase_idemp|].
  by apply eachChild_lowercase.
Qed.

(** X5: every tag of a tree built by [parseHtmlContent] is in lower case,
    whatever the case of the tag names of the document. *)
Theorem parse_tags_lowercase parseFromString serializeToString html :
  Forall (λ n, JS.toLowerCase (tag n) = tag n)
    (nodes (root (parseHtmlContent parseFromString serializeToString html))).
Proof.
  unfold parseHtmlContent. simpl. constructor; [done|].
  generalize 0. induction (childNodes (body (parseFromString html))) as [|n cs IH];
    intros k; [constructor|].
  destruct n as [e|data|data]; simpl; [|apply IH..].
  apply Forall_app. split; [apply traverse_lowercase | apply IH].
Qed.

(** ** More about [findPath] and [findNode] *)

Lemma findNode_eq targetId node :
  findNode targetId node =
  if decide (id node = targetId) then Some node
  else findNodeIn targetId (children node).
Proof.
  destruct node as [i t a cs tc sc]. simpl.
  destruct (decide (i = targetId)); [done|].
  induction cs as [|c cs IH]; [done|]. simpl. by rewrite IH.
Qed.

Lemma last_chainAlong pos :
  ∀ n target, node_at n pos = Some target → last (chainAlong n pos) = Some target.
Proof.
  induction pos as [|i pos IH]; intros n target Hat; simpl in *; [by injection Hat as ->|].
  destruct (children n !! i) as [c|]; [|done].
  destruct (chainAlong_cons c pos) as [rest Hrest].
  rewrite last_cons. rewrite (IH c target Hat). done.
Qed.

Lemma node_at_nodes pos :
  ∀ n target, node_at n pos = Some target → target ∈ nodes n.
Proof.
  induction pos as [|i pos IH]; intros n target Hat; simpl in *.
  - injection Hat as ->. destruct target. simpl. apply elem_of_cons. by left.
  - destruct (children n !! i) as [c|] eqn:Hc; [|done].
    destruct n as [i0 t a cs tc sc]. simpl in *. apply elem_of_cons. right.
    eapply elem_of_flat_map_lookup; [done|]. by apply IH.
Qed.

Lemma findPathIn_sound targetId cs :
  Forall (λ c, ∀ cur r, findPath targetId c cur = Some r →
                 ∃ pos, r = cur ++ chainAlong c pos ∧ reaches c pos targetId) cs →
  ∀ cur r, findPathIn targetId cs cur = Some r →
    ∃ i c pos, cs !! i = Some c ∧ r = cur ++ chainAlong c pos ∧ reaches c pos targetId.
Proof.
  induction 1 as [|c cs Hc _ IH]; intros cur r Hr; [done|]. simpl in Hr.
  destruct (findPath targetId c cur) as [r'|] eqn:Hfind.
  - injection Hr as <-. destruct (Hc _ _ Hfind) as (pos & -> & Hreach).
    by exists 0, c, pos.
  - destruct (IH _ _ Hr) as (i & c' & pos & Hi & -> & Hreach).
    by exists (S i), c', pos.
Qed.

Lemma findPath_sound_at targetId :
  ∀ n cur r, findPath targetId n cur = Some r →
    ∃ pos, r = cur ++ chainAlong n pos ∧ reaches n pos targetId.
Proof.
  induction n as [n IH] using ParsedNode_nested_ind. intros cur r.
  rewrite findPath_eq. destruct (decide (id n = targetId)) as [Hid|Hid].
  - intros [= <-]. exists []. split; [done|]. by exists n.
  - intros Hr. destruct (findPathIn_sound _ _ IH _ _ Hr) as (i & c & pos & Hi & -> & Hreach).
    exists (i :: pos). simpl. rewrite Hi. split; [by rewrite <- app_assoc|].
    destruct Hreach as (target & Hat & Htid). exists target. simpl. by rewrite Hi.
Qed.

(** X6: whatever the tree, a path found by [findPath] is the given prefix
    followed by a chain that starts at the node searched, goes from parent
    to child, and ends at a node that carries the target id. *)
Theorem findPath_sound (targetId : string) (n : ParsedNode)
    (currentPath r : list ParsedNode) :
  findPath targetId n currentPath = Some r →
  ∃ pos, r = currentPath ++ chainAlong n pos ∧ reaches n pos targetId.
Proof. apply findPath_sound_at. Qed.

Lemma findPath_sound_witness :
  ∃ pos,
    chainAlong helloWorldRoot [0; 1] = [] ++ chainAlong helloWorldRoot pos
    ∧ reaches helloWorldRoot pos "root-0-1".
Proof.
  apply (findPath_sound "root-0-1" helloWorldRoot []
           (chainAlong helloWorldRoot [0; 1])).
  vm_compute. reflexivity.
Defined.

Lemma findPath_present targetId :
  ∀ n cur, targetId ∈ ids n → is_Some (findPath targetId n cur).
Proof.
  induction n as [n IH] using ParsedNode_nested_ind. intros cur Hin.
  rewrite findPath_eq. destruct (decide (id n = targetId)) as [Hid|Hid]; [done|].
  destruct n as [i t a cs tc sc]. simpl in *.
  apply elem_of_cons in Hin as [Heq|Hin]; [congruence|].
  generalize (cur ++ [mkParsedNode i t a cs tc sc]). intros cur'.
  induction IH as [|c cs Hc _ IHcs]; simpl in *; [by apply elem_of_nil in Hin|].
  destruct (findPath targetId c cur') as [r|] eqn:Hfind; [done|].
  apply elem_of_app in Hin as [Hin|Hin]; [|by apply IHcs].
  destruct (Hc cur' Hin) as [r Hr]. congruence.
Qed.

Lemma findPath_last targetId n cur r :
  findPath targetId n cur = Some r →
  ∃ m, last r = Some m ∧ id m = targetId ∧ m ∈ nodes n.
Proof.
  intros (pos & -> & target & Hat & Hid)%findPath_sound_at.
  exists target. rewrite last_app, (last_chainAlong _ _ _ Hat).
  split; [done|]. split; [done|]. by eapply node_at_nodes.
Qed.

Lemma findNode_findPath targetId :
  ∀ n cur, findNode targetId n = findPath targetId n cur ≫= last.
Proof.
  induction n as [n IH] using ParsedNode_nested_ind. intros cur.
  rewrite findNode_eq, findPath_eq.
  destruct (decide (id n = targetId)); simpl; [by rewrite last_snoc|].
  generalize (cur ++ [n]). intros cur'.
  induction IH as [|c cs Hc _ IHcs]; [done|]. simpl.
  rewrite (Hc cur').
  destruct (findPath targetId c cur') as [r|] eqn:Hfind; simpl.
  - destruct (findPath_last _ _ _ _ Hfind) as (m & -> & _). done.
  - apply IHcs.
Qed.

(** X7: the node [App] resolves for an id ([findNode]) is the last node of
    the path [generateCssSelector] builds its selector from ([findPath]),
    and both find nothing together. *)
Theorem findNode_is_last_of_findPath (targetId : string) (root : ParsedNode) :
  findNode targetId root = findPath targetId root [] ≫= last.
Proof. apply findNode_findPath. Qed.

(** X8: [findNode] finds nothing exactly when no node of the tree carries
    the id; a node it finds is a node of the tree and carries the id. *)
Theorem findNode_correct (targetId : string) (root : ParsedNode) :
  (findNode targetId root = None ↔ targetId ∉ ids root)
  ∧ (∀ m, findNode targetId root = Some m → id m = targetId ∧ m ∈ nodes root).
Proof.
  rewrite (findNode_findPath targetId root []). split; [split|].
  - intros Hnone Hin. destruct (findPath_present targetId root [] Hin) as [r Hr].
    rewrite Hr in Hnone. simpl in Hnone.
    destruct (findPath_last _ _ _ _ Hr) as (m & Hm & _). congruence.
  - intros Hnot. by rewrite findPath_absent.
  - intros m. destruct (findPath targetId root []) as [r|] eqn:Hr; [|done]. simpl.
    destruct (findPath_last _ _ _ _ Hr) as (m' & Hm & Hid & Hin).
    rewrite Hm. by intros [= <-].
Qed.

(** X9: in a tree built by [parseHtmlContent], looking up the id of the
    node at any position gives back that very node. *)
Theorem parse_findNode_roundtrip parseFromString serializeToString html
    (pos : list nat) (target : ParsedNode) :
  node_at (root (parseHtmlContent parseFromString serializeToString html)) pos
    = Some target →
  findNode (id target) (root (parseHtmlContent parseFromString serializeToString html))
    = Some target.
Proof.
  intros Hat. rewrite (findNode_findPath _ _ []).
  rewrite (findPath_found pos _ target [] (parse_ids_NoDup _ _ _) Hat). simpl.
  by apply last_chainAlong.
Qed.

Lemma parse_findNode_roundtrip_witness :
  ∃ target,
    node_at helloWorldRoot [0; 1; 0] = Some target
    ∧ textContent target = Some "World"
    ∧ findNode (id target) helloWorldRoot = Some target.
Proof.
  eexists. split; [reflexivity|]. split; [reflexivity|].
  apply (parse_findNode_roundtrip sampleParser sampleSerializer
           "<div><p>Hello</p><p>World</p></div>" [0; 1; 0] _ eq_refl).
Defined.

(** ** More about the script stream *)

Lemma prefix_app_l (a b s : string) :
  String.prefix (a +:+ b) s = true → String.prefix a s = true.
Proof.
  revert s. induction a as [|c a IH]; intros s; [by destruct s|].
  rewrite string_app_cons. destruct s as [|c' s]; simpl; [done|].
  destruct (Ascii.ascii_dec c c'); [apply IH|done].
Qed.

Lemma stripFences_go_fenceless s :
  hasFence s = false → JS.stripFences_go 0 s = s.
Proof.
  induction s as [|c s IH]; [done|]. intros Hs.
  change (hasFence (String c s))
    with (String.prefix JS.fence (String c s) || hasFence s) in Hs.
  apply orb_false_elim in Hs as [Hfence Hrest].
  change (JS.stripFences_go 0 (String c s))
    with (if String.prefix JS.fenceJs (String c s) then JS.stripFences_go 12 s
          else if String.prefix JS.fence (String c s) then JS.stripFences_go 2 s
          else String c (JS.stripFences_go 0 s)).
  rewrite Hfence.
  destruct (String.prefix JS.fenceJs (String c s)) eqn:Hjs.
  - apply (prefix_app_l JS.fence "javascript") in Hjs. congruence.
  - by rewrite IH.
Qed.

(** X10: a chunk text that holds no code fence comes out of the cleaning
    unchanged. *)
Theorem stripFences_fenceless (s : string) :
  hasFence s = false → JS.stripFences s = s.
Proof. apply stripFences_go_fenceless. Qed.

Lemma stripFences_fenceless_witness :
  hasFence "const a = `x`;" = false
  ∧ JS.stripFences "const a = `x`;" = "const a = `x`;".
Proof.
  split; [reflexivity|]. apply (stripFences_fenceless "const a = `x`;" eq_refl).
Defined.

Lemma stripFences_go_sublist s :
  ∀ skip, sublist (String.list_ascii_of_string (JS.stripFences_go skip s))
                  (String.list_ascii_of_string s).
Proof.
  induction s as [|c s IH]; intros skip; [done|].
  destruct skip as [|k].
  - change (JS.stripFences_go 0 (String c s))
      with (if String.prefix JS.fenceJs (String c s) then JS.stripFences_go 12 s
            else if String.prefix JS.fence (String c s) then JS.stripFences_go 2 s
            else String c (JS.stripFences_go 0 s)).
    destruct (String.prefix JS.fenceJs (String c s));
      [|destruct (String.prefix JS.fence (String c s))]; simpl.
    + apply sublist_cons, IH.
    + apply sublist_cons, IH.
    + apply sublist_skip, IH.
  - simpl. apply sublist_cons, IH.
Qed.

(** X11: the cleaning only deletes: what it returns is the input with some
    code units left out, the others in their order. *)
Theorem stripFences_only_deletes (s : string) :
  sublist (String.list_ascii_of_string (JS.stripFences s)) (String.list_ascii_of_string s).
Proof. apply stripFences_go_sublist. Qed.

Lemma cleanChunk_nonempty chunk text : cleanChunk chunk = Some text → text ≠ "".
Proof.
  unfold cleanChunk. destruct (JS.stripFences (default "" chunk)) as [|c s]; simpl.
  - done.
  - by intros [= <-].
Qed.

(** X12: [generateScrapingScriptStream] never yields an empty chunk,
    whatever the key and whatever the model service answers. *)
Theorem stream_chunks_nonempty API_KEY generateContentStream html targets :
  Forall (λ chunk, chunk ≠ "")
    (generateScrapingScriptStream API_KEY generateContentStream html targets).
Proof.
  unfold generateScrapingScriptStream.
  destruct (negb (JS.truthy_opt API_KEY)); [by repeat constructor|].
  destruct (generateContentStream (scrapingPrompt targets)) as [rs|];
    [|by repeat constructor].
  apply Forall_app. split.
  - apply Forall_forall. intros text (chunk & Hin & Hclean)%list_elem_of_omap.
    by eapply cleanChunk_nonempty.
  - destruct (ending rs); by repeat constructor.
Qed.

(** ** [handleGenerateScraper] *)

Lemma foldl_chunk_script chunks :
  ∀ st,
    foldl handleGenerateScraper_chunk st chunks
    = mkBuilderState
        (setGeneratedScript
           (generatedScript (builderApp st) +:+ concatChunks chunks) (builderApp st))
        (isScraping st).
Proof.
  induction chunks as [|c chunks IH]; intros [s flag]; simpl.
  - rewrite string_app_nil_r. by destruct s.
  - rewrite IH. simpl. by rewrite string_app_assoc.
Qed.

(** X13: a generation run that nothing interrupts leaves in
    [generatedScript] what [generateScrapingScript] returns for the
    document and the targets of the state it started from, whatever the
    script was before; it lowers [isScraping] and touches nothing else.
    Without targets it changes nothing. *)
Theorem handleGenerateScraper_result API_KEY generateContentStream (st : BuilderState) :
  handleGenerateScraper API_KEY generateContentStream st
  = if bool_decide (length (scrapeTargets (builderApp st)) = 0) then st
    else mkBuilderState
           (setGeneratedScript
              (generateScrapingScript API_KEY generateContentStream
                 (rawHtml (builderApp st)) (scrapeTargets (builderApp st)))
              (builderApp st))
           false.
Proof.
  unfold handleGenerateScraper, handleGenerateScraper_begin.
  destruct (bool_decide _); [done|].
  rewrite foldl_chunk_script. unfold handleGenerateScraper_end. simpl.
  unfold generateScrapingScript. by rewrite foldl_append_concat.
Qed.

(** ** More about the scrape targets and the event system *)

Lemma filterOutIndex_spec {A} (index : nat) (xs : list A) :
  ∀ i, filterOutIndex index i xs
       = if decide (i ≤ index)%nat then take (index - i) xs ++ drop (S (index - i)) xs
         else xs.
Proof.
  induction xs as [|x xs IH]; intros i; simpl.
  - destruct (decide (i ≤ index)%nat); [|done]. by rewrite take_nil.
  - rewrite IH. destruct (decide (i = index)) as [->|Hne].
    + rewrite decide_False by lia. rewrite decide_True by lia.
      by rewrite Nat.sub_diag.
    + destruct (decide (i ≤ index)%nat) as [Hle|Hgt].
      * rewrite decide_True by lia.
        replace (index - i) with (S (index - S i)) by lia. done.
      * by rewrite decide_False by lia.
Qed.

Lemma handleRemoveTarget_eq (index : nat) (s : AppState) :
  handleRemoveTarget index s
  = setScrapeTargets
      (take index (scrapeTargets s) ++ drop (S index) (scrapeTargets s)) s.
Proof.
  unfold handleRemoveTarget. rewrite filterOutIndex_spec.
  rewrite decide_True by lia. by rewrite Nat.sub_0_r.
Qed.

(** X14: [handleRemoveTarget] takes out the target at the given position,
    keeps the others in their order, and leaves everything else in the state
    alone; a position past the end removes nothing. *)
Theorem handleRemoveTarget_removes (index : nat) (s : AppState) :
  handleRemoveTarget index s
  = setScrapeTargets
      (take index (scrapeTargets s) ++ drop (S index) (scrapeTargets s)) s
  ∧ ((length (scrapeTargets s) ≤ index)%nat → handleRemoveTarget index s = s).
Proof.
  rewrite handleRemoveTarget_eq. split; [done|].
  intros Hlen. rewrite take_ge by lia. rewrite drop_ge by lia.
  rewrite app_nil_r. by destruct s.
Qed.

Lemma handleRemoveTarget_removes_witness :
  handleRemoveTarget 5 (initialState "") = initialState "".
Proof.
  apply (proj2 (handleRemoveTarget_removes 5 (initialState ""))). simpl. lia.
Defined.

Lemma targetUrlOf_prefix url : String.prefix "http" (targetUrlOf url) = true.
Proof.
  unfold targetUrlOf. destruct (String.prefix "http" url) eqn:Hp; [done|].
  reflexivity.
Qed.

(** X15: the URL asked from the relay always starts with [http], and
    normalising it again changes nothing. *)
Theorem targetUrlOf_normalises (url : string) :
  String.prefix "http" (targetUrlOf url) = true
  ∧ targetUrlOf (targetUrlOf url) = targetUrlOf url.
Proof.
  split; [apply targetUrlOf_prefix|].
  unfold targetUrlOf at 1. by rewrite targetUrlOf_prefix.
Qed.

Lemma substring0_length n s : (String.length (JS.substring0 n s) ≤ n)%nat.
Proof.
  unfold JS.substring0. revert s. induction n as [|n IH]; intros [|c s]; simpl; try lia.
  specialize (IH s). lia.
Qed.

Section MoreAppFacts.

Variable parseFromString : string → Document.
Variable serializeToString : Document → string.
Variable Container : Type.
Variable LiveElement : Type.
Variable getContainer : option Container.
Variable querySelector : Container → string → option LiveElement.
Variable finder : LiveElement → Container → option string.

Local Abbreviation stepOf :=
  (step parseFromString serializeToString Container LiveElement
        getContainer querySelector finder).
Local Abbreviation runOf :=
  (run parseFromString serializeToString Container LiveElement
       getContainer querySelector finder).
Local Abbreviation addTargetOf :=
  (handleAddTarget parseFromString serializeToString Container LiveElement
                   getContainer querySelector finder).
Local Abbreviation previewOf := (preview parseFromString serializeToString).

(** X16: removing the last position right after an add gives back the
    targets there were before the add, whether the add went through or
    not. *)
Theorem add_then_remove_last (s : AppState) :
  scrapeTargets
    (handleRemoveTarget (length (scrapeTargets s)) (addTargetOf s))
  = scrapeTargets s.
Proof.
  rewrite handleRemoveTarget_eq.
  simpl. unfold handleAddTarget.
  destruct (selectedId s) as [sid|]; simpl.
  - destruct (negb (JS.truthy sid) || negb (JS.truthy (targetName s))); simpl.
    + rewrite take_ge by lia. rewrite drop_ge by lia. by rewrite app_nil_r.
    + rewrite take_app_length. rewrite drop_ge by (rewrite length_app; simpl; lia).
      by rewrite app_nil_r.
  - rewrite take_ge by lia. rewrite drop_ge by lia. by rewrite app_nil_r.
Qed.

Lemma preview_length (s : AppState) :
  (1 ≤ String.length (previewOf s) ≤ 30)%nat.
Proof.
  unfold preview.
  destruct (selectedNode parseFromString serializeToString s ≫= textContent)
    as [text|]; [|simpl; lia].
  pose proof (substring0_length 30 text) as Hlen.
  destruct (JS.substring0 30 text) as [|c cut] eqn:Hcut; simpl in *; lia.
Qed.

Lemma handleAddTarget_wellFormed (s : AppState) :
  Forall targetWellFormed (scrapeTargets s) →
  Forall targetWellFormed (scrapeTargets (addTargetOf s)).
Proof.
  intros Hall. unfold handleAddTarget.
  destruct (selectedId s) as [sid|]; [|done].
  destruct (JS.truthy sid) eqn:Hsid; [|done].
  destruct (JS.truthy (targetName s)) eqn:Hname; [|done]. simpl.
  apply Forall_app. split; [done|]. constructor; [|constructor].
  unfold targetWellFormed. simpl. repeat split.
  - by destruct sid.
  - by destruct (targetName s).
  - by destruct (targetDescription s).
  - apply preview_length.
  - apply preview_length.
Qed.

Lemma filterOutIndex_Forall {A} (P : A → Prop) index (xs : list A) :
  ∀ i, Forall P xs → Forall P (filterOutIndex index i xs).
Proof.
  induction xs as [|x xs IH]; intros i Hall; [constructor|]. simpl.
  apply Forall_cons in Hall as [Hx Hxs].
  destruct (decide (i = index)); [by apply IH|]. constructor; [done|by apply IH].
Qed.

Lemma step_targets_wellFormed sys ev :
  Forall targetWellFormed (scrapeTargets (app sys)) →
  Forall targetWellFormed (scrapeTargets (app (stepOf sys ev))).
Proof.
  intros Hall. destruct ev; simpl; try done.
  - unfold handleUrlSubmit_begin. by destruct (negb (JS.truthy (urlInput (app sys)))).
  - destruct (inFlight sys !! k) as [p|]; [|done]. simpl.
    destruct (fetchUrlContent r); simpl; [constructor|done].
  - by destruct (isInspectMode (app sys)).
  - by destruct (isInspectMode (app sys)).
  - by destruct (isInspectMode (app sys) && JS.truthy_opt target).
  - by apply handleAddTarget_wellFormed.
  - by apply filterOutIndex_Forall.
Qed.

Lemma run_targets_wellFormed evs :
  ∀ sys,
    Forall targetWellFormed (scrapeTargets (app sys)) →
    Forall targetWellFormed (scrapeTargets (app (runOf sys evs))).
Proof.
  induction evs as [|ev evs IH]; intros sys Hsys; [done|]. simpl.
  apply IH. by apply step_targets_wellFormed.
Qed.

(** X17: whatever the user does from the first render on, every scrape
    target in the state has a non-empty id, name and description and an
    example value of 1 to 30 code units. *)
Theorem targets_always_wellFormed (exampleHtml : string) (evs : list Event) :
  Forall targetWellFormed (scrapeTargets (app (runOf (boot exampleHtml) evs))).
Proof. apply run_targets_wellFormed. constructor. Qed.

(** X18: from the first render on, as long as every submission goes
    through the enabled submit button, at most one fetch is pending, and the
    loading flag is up exactly while one is. *)
Theorem submit_button_serialises_loads (exampleHtml : string) (evs : list Event) :
  submissionsGated stepOf (boot exampleHtml) evs = true →
  oneFetchAtMost (runOf (boot exampleHtml) evs).
Proof.
  intros Hgated. apply gated_submissions_never_overlap; [|done]. by left.
Qed.

Lemma step_preview_interact sys ev :
  isInspectMode (app sys) = false → isPreviewEvent ev = true → stepOf sys ev = sys.
Proof. intros Hmode Hev. destruct ev; try done; simpl; by rewrite Hmode. Qed.

(** X20: in Interact mode no sequence of pointer events of the live preview
    changes anything: neither cursor moves and the mode stays. *)
Theorem interact_mode_ignores_preview (sys : System) (evs : list Event) :
  isInspectMode (app sys) = false →
  forallb isPreviewEvent evs = true →
  runOf sys evs = sys.
Proof.
  intros Hmode. induction evs as [|ev evs IH]; [done|]. simpl.
  intros [Hev Hevs]%andb_prop.
  rewrite (step_preview_interact sys ev Hmode Hev). by apply IH.
Qed.

End MoreAppFacts.

Lemma submit_button_serialises_loads_witness :
  submissionsGated sampleStep sampleBoot
    [TypeUrl "a.example"; SubmitUrl; FetchSettles 0 (Response true "Hello<p>x</p>");
     SubmitUrl] = true
  ∧ oneFetchAtMost
      (sampleRun sampleBoot
         [TypeUrl "a.example"; SubmitUrl;
          FetchSettles 0 (Response true "Hello<p>x</p>"); SubmitUrl]).
Proof.
  split; [reflexivity|].
  apply (submit_button_serialises_loads sampleParser sampleSerializer unit unit None
           (λ _ _, None) (λ _ _, None) "<div><p>Hello</p><p>World</p></div>").
  reflexivity.
Defined.

Lemma interact_mode_ignores_preview_witness :
  sampleRun (sampleStep sampleBoot ClickInteract)
    [PreviewMouseOver (Some "root-0"); PreviewClick (Some "root-0"); PreviewMouseLeave]
  = sampleStep sampleBoot ClickInteract.
Proof.
  apply (interact_mode_ignores_preview sampleParser sampleSerializer unit unit None
           (λ _ _, None) (λ _ _, None) (sampleStep sampleBoot ClickInteract)
           [PreviewMouseOver (Some "root-0"); PreviewClick (Some "root-0");
            PreviewMouseLeave] eq_refl eq_refl).
Defined.

(** ** More about the overlays *)

(** X21: after a scroll or a resize of the frame both overlays are
    computed afresh from the live document.  At most two are drawn, never
    two of one colour, and only the selection when both cursors agree; what
    is drawn is the white, labelled rectangle the live document now resolves
    for the selection or the grey, unlabelled one it resolves for a hover
    cursor that is not the selection; and each of the two is drawn when the
    overlays are rendered and the live document resolves the cursor. *)
Theorem overlays_never_confusable (DOMRect : Type) (s : AppState)
    (iframeMounted : bool) (liveDocument : LiveDocument DOMRect)
    (v : ViewerState DOMRect) :
  viewerConsistent DOMRect v →
  let shown :=
    renderOverlays DOMRect s iframeMounted
      (VisualViewer_update DOMRect s iframeMounted liveDocument
         (handleScroll DOMRect v)) in
  (length shown ≤ 2)%nat
  ∧ NoDup (h_color DOMRect <$> shown)
  ∧ (hoveredId s = selectedId s →
     Forall (λ h, h_label DOMRect h = Some "Selected") shown)
  ∧ (∀ h, h ∈ shown →
     ∃ lookup i,
       liveDocument = Some lookup ∧ i ≠ "" ∧ lookup i = Some (h_rect DOMRect h)
       ∧ ((h_color DOMRect h = "#ffffff" ∧ h_label DOMRect h = Some "Selected"
           ∧ selectedId s = Some i)
          ∨ (h_color DOMRect h = "#71717a" ∧ h_label DOMRect h = None
             ∧ hoveredId s = Some i ∧ selectedId s ≠ Some i)))
  ∧ (∀ lookup i r,
       overlaysMounted s iframeMounted = true →
       liveDocument = Some lookup → i ≠ "" → lookup i = Some r →
       (selectedId s = Some i →
        mkHighlight DOMRect r "#ffffff" (Some "Selected") ∈ shown)
       ∧ (hoveredId s = Some i → selectedId s ≠ Some i →
          mkHighlight DOMRect r "#71717a" None ∈ shown)).
Proof.
  intros Hv shown.
  destruct (renderOverlays_bounds DOMRect s iframeMounted
              (VisualViewer_update DOMRect s iframeMounted liveDocument
                 (handleScroll DOMRect v))) as (Hlen & Hcol & Hsame).
  do 3 (split; [done|]). subst shown.
  rewrite (VisualViewer_update_scrolled DOMRect s iframeMounted liveDocument v Hv).
  split.
  - intros h. apply renderOverlays_mounted_sound.
  - intros lookup i r Hm -> Hi Hr. split.
    + intros Hsel. by apply (renderOverlays_mounted_selected DOMRect s _ lookup _ i).
    + intros Hhov Hsel.
      by apply (renderOverlays_mounted_hovered DOMRect s _ lookup _ i).
Qed.

Lemma overlays_never_confusable_witness :
  mkHighlight nat 7 "#ffffff" (Some "Selected")
  ∈ renderOverlays nat (app (sampleStep sampleBoot (TreeClick "root-0-1"))) true
      (VisualViewer_update nat (app (sampleStep sampleBoot (TreeClick "root-0-1")))
         true (Some sampleLookup) (handleScroll nat (initialViewer nat))).
Proof.
  assert (Hv : viewerConsistent nat (initialViewer nat))
    by (split; intros st Hst; discriminate Hst).
  pose proof (overlays_never_confusable nat
                (app (sampleStep sampleBoot (TreeClick "root-0-1"))) true
                (Some sampleLookup) (initialViewer nat) Hv)
    as (_ & _ & _ & _ & Hdrawn).
  apply (proj1 (Hdrawn sampleLookup "root-0-1" 7 eq_refl eq_refl
                  ltac:(discriminate) eq_refl)).
  reflexivity.
Defined.

(** The rectangle of an overlay is kept between runs of its effect: the
    pointer rests on the second [p] while a URL is loaded; the live document
    no longer resolves [root-0-1], and the grey rectangle computed before the
    load stays on screen until the frame is scrolled or resized. *)
Example stale_overlay_survives_load :
  let before := app (sampleRun sampleBoot [TreeMouseEnter "root-0-1"]) in
  let after := app (sampleRun sampleBoot hoverThenLoad) in
  let v := VisualViewer_update nat before true (Some sampleLookup) (initialViewer nat) in
  let v' := VisualViewer_update nat after true (Some (λ _, None)) v in
  renderOverlays nat after true v' = [mkHighlight nat 7 "#71717a" None]
  ∧ renderOverlays nat after true
      (VisualViewer_update nat after true (Some (λ _, None)) (handleScroll nat v')) = [].
Proof. split; vm_compute; reflexivity. Qed.

(** ** The content written to the frame *)

Lemma stripPrefix_Some p :
  ∀ s r, stripPrefix p s = Some r → s = p +:+ r.
Proof.
  induction p as [|a p IH]; intros s r; simpl.
  - by intros [= ->].
  - destruct s as [|b s]; [done|]. destruct (decide (a = b)) as [->|]; [|done].
    intros Hr. rewrite string_app_cons. by rewrite (IH s r Hr).
Qed.

Lemma splitAtFirst_Some pat s :
  ∀ before after,
    splitAtFirst pat s = Some (before, after) → s = before +:+ pat +:+ after.
Proof.
  induction s as [|c s IH]; intros before after; simpl.
  - destruct (stripPrefix pat "") as [r|] eqn:Hp; [|done].
    intros [= <- <-]. by apply stripPrefix_Some in Hp.
  - destruct (stripPrefix pat (String c s)) as [r|] eqn:Hp.
    + intros [= <- <-]. by apply stripPrefix_Some in Hp.
    + destruct (splitAtFirst pat s) as [[b a]|]; [|done].
      intros [= <- <-]. rewrite string_app_cons. by rewrite (IH b a eq_refl).
Qed.

Lemma prefix_app_self (p s : string) : String.prefix p (p +:+ s) = true.
Proof.
  induction p as [|c p IH]; [by destruct s|].
  rewrite string_app_cons. simpl. by destruct (Ascii.ascii_dec c c).
Qed.

Lemma stripPrefix_app (p r : string) : stripPrefix p (p +:+ r) = Some r.
Proof.
  induction p as [|c p IH]; [done|]. rewrite string_app_cons. simpl.
  by rewrite decide_True.
Qed.

Lemma splitAtFirst_first pat s :
  ∀ before after b a,
    splitAtFirst pat s = Some (before, after) →
    s = b +:+ pat +:+ a →
    (String.length before ≤ String.length b)%nat.
Proof.
  induction s as [|c s IH]; intros before after b a; simpl.
  - destruct (stripPrefix pat "") as [r|]; [|done]. intros [= <- <-] _. simpl. lia.
  - destruct (stripPrefix pat (String c s)) as [r|] eqn:Hp.
    { intros [= <- <-] _. simpl. lia. }
    destruct (splitAtFirst pat s) as [[b0 a0]|] eqn:Hs; [|done].
    intros [= <- <-] Heq. destruct b as [|c' b].
    + rewrite string_app_nil_l in Heq. rewrite Heq, stripPrefix_app in Hp. done.
    + rewrite string_app_cons in Heq. injection Heq as -> Heq.
      simpl. pose proof (IH b0 a0 b a eq_refl Heq). lia.
Qed.

Lemma dollarFree_app a b : dollarFree (a +:+ b) = dollarFree a && dollarFree b.
Proof.
  induction a as [|c a IH]; [done|]. rewrite string_app_cons. simpl.
  by rewrite IH, andb_assoc.
Qed.

Lemma expandReplacement_dollarFree matched before after template :
  dollarFree template = true →
  expandReplacement matched before after template = template.
Proof.
  unfold expandReplacement. induction template as [|c t IH]; [done|]. simpl.
  intros [Hc Ht]%andb_prop. apply negb_true_iff, bool_decide_eq_false in Hc.
  rewrite decide_False by done. by rewrite IH.
Qed.

Lemma replaceFirst_dollarFree pat template s before after :
  dollarFree template = true →
  splitAtFirst pat s = Some (before, after) →
  s = before +:+ pat +:+ after
  ∧ replaceFirst pat template s = before +:+ template +:+ after.
Proof.
  intros Ht Hs. split; [by apply splitAtFirst_Some|].
  unfold replaceFirst. rewrite Hs. by rewrite expandReplacement_dollarFree.
Qed.

Lemma styleInjection_dollarFree mode :
  dollarFree (styleInjection mode +:+ "</head>") = true.
Proof. destruct mode; reflexivity. Qed.

(** X22: whatever the document, the base URL and the mode, the content
    written to the frame is the content after the base step with the style
    rule of the current mode put in at one place: right before the first
    [</head>], or at the end when there is no [</head>]; that step drops
    nothing. *)
Theorem frameContent_has_style (html baseUrl : string) (isInspectMode : bool) :
  ∃ before after,
    withBase html baseUrl = before +:+ after
    ∧ frameContent html baseUrl isInspectMode
      = before +:+ styleInjection isInspectMode +:+ after
    ∧ ((includes "</head>" (withBase html baseUrl) = false ∧ after = "")
       ∨ (∃ rest, after = "</head>" +:+ rest
          ∧ ∀ b a, withBase html baseUrl = b +:+ "</head>" +:+ a →
              (String.length before ≤ String.length b)%nat)).
Proof.
  unfold frameContent, withStyle, includes.
  destruct (splitAtFirst "</head>" (withBase html baseUrl)) as [[b a]|] eqn:Hs.
  - destruct (replaceFirst_dollarFree _ _ _ _ _
                (styleInjection_dollarFree isInspectMode) Hs) as [Heq ->].
    exists b, ("</head>" +:+ a). split; [done|]. split.
    + by rewrite string_app_assoc.
    + right. exists a. split; [done|]. intros b' a' Hocc.
      by eapply splitAtFirst_first.
  - exists (withBase html baseUrl), "". rewrite !string_app_nil_r. auto.
Qed.

(** X23: for a non-empty base URL without a dollar sign, the base step keeps
    the whole document and puts in the [base] element for that URL: right
    after the first [<head>], or inside a [head] of its own in front of the
    document when there is no [<head>]. *)
Theorem withBase_inserts_base (html baseUrl : string) :
  baseUrl ≠ "" →
  dollarFree baseUrl = true →
  (∃ before after,
     html = before +:+ "<head>" +:+ after
     ∧ withBase html baseUrl
       = before +:+ "<head>" +:+ baseTag baseUrl +:+ after
     ∧ ∀ b a, html = b +:+ "<head>" +:+ a →
         (String.length before ≤ String.length b)%nat)
  ∨ (includes "<head>" html = false
     ∧ withBase html baseUrl
       = "<head>" +:+ baseTag baseUrl +:+ "</head>" +:+ html).
Proof.
  intros Hne Hfree. unfold withBase, includes.
  destruct baseUrl as [|c u]; [done|]. cbn [JS.truthy].
  destruct (splitAtFirst "<head>" html) as [[b a]|] eqn:Hs; [left|by right].
  assert (Ht : dollarFree ("<head>" +:+ baseTag (String c u)) = true).
  { unfold baseTag. rewrite !dollarFree_app, Hfree. reflexivity. }
  destruct (replaceFirst_dollarFree _ _ _ _ _ Ht Hs) as [Heq ->].
  exists b, a. split; [done|]. split; [by rewrite !string_app_assoc|].
  intros b' a' Hocc. by eapply splitAtFirst_first.
Qed.

Lemma withBase_inserts_base_witness :
  (∃ before after,
     "<html><head></head><body></body></html>" = before +:+ "<head>" +:+ after
     ∧ withBase "<html><head></head><body></body></html>" "https://a.example"
       = before +:+ "<head>" +:+ baseTag "https://a.example" +:+ after
     ∧ ∀ b a, "<html><head></head><body></body></html>" = b +:+ "<head>" +:+ a →
         (String.length before ≤ String.length b)%nat)
  ∨ (includes "<head>" "<html><head></head><body></body></html>" = false
     ∧ withBase "<html><head></head><body></body></html>" "https://a.example"
       = "<head>" +:+ baseTag "https://a.example" +:+ "</head>"
         +:+ "<html><head></head><body></body></html>").
Proof.
  apply (withBase_inserts_base "<html><head></head><body></body></html>"
           "https://a.example"); [discriminate|reflexivity].
Defined.
